(** * fork_model: a branching, population-based execution engine

    Shallow embedding of [fork.py] / [process.py] (the two files hold the
    same engine): [Process], [Sys] and [OperatingSystem], with the pieces of
    Python they rely on ([list.pop], [list.sort], slicing, floor division). *)

From Stdlib Require Import ZArith Lia.
From stdpp Require Import base option list sorting.

(** ** The Python primitives the engine uses *)

Module Py.

(** The two exceptions the arithmetic and the slices of [Sys.prune] can
    raise. *)
Inductive exn : Type := ZeroDivisionError | ValueError.

Inductive result (A : Type) : Type :=
| Ok (a : A)
| Raise (e : exn).
Global Arguments Ok {A} a.
Global Arguments Raise {A} e.

Global Instance result_ret : MRet result := λ A a, Ok a.
Global Instance result_bind : MBind result := λ A B f m,
  match m with
  | Ok a => f a
  | Raise e => Raise e
  end.

(** How a call ended. *)
Inductive outcome : Type := Returned | Raised (e : exn).

(** [a // b] on [int]: floor division, [ZeroDivisionError] when [b = 0].
    [Z.div] rounds towards minus infinity for either sign of [b], as
    Python does. *)
Definition floordiv (a b : Z) : result Z :=
  if (b =? 0)%Z then Raise ZeroDivisionError else Ok (a / b)%Z.

(** [l.pop()]: the last element and the list left behind; [None] stands
    for [IndexError] on the empty list. *)
Definition pop {A} (l : list A) : option (A * list A) :=
  match last l with
  | Some x => Some (x, take (length l - 1) l)
  | None => None
  end.

(** Clamping of a given slice bound, as [PySlice_AdjustIndices] does. *)
Definition adjust (len step i : Z) : Z :=
  if (i <? 0)%Z then
    if (i + len <? 0)%Z then (if (step <? 0)%Z then -1 else 0)%Z
    else (i + len)%Z
  else if (len <=? i)%Z then (if (step <? 0)%Z then len - 1 else len)%Z
  else i.

Definition slice_start (len step : Z) (start : option Z) : Z :=
  match start with
  | Some i => adjust len step i
  | None => if (step <? 0)%Z then (len - 1)%Z else 0%Z
  end.

Definition slice_stop (len step : Z) (stop : option Z) : Z :=
  match stop with
  | Some i => adjust len step i
  | None => if (step <? 0)%Z then (-1)%Z else len
  end.

(** Number of selected positions for adjusted bounds. *)
Definition slice_length (start stop step : Z) : nat :=
  if (step <? 0)%Z then
    if (stop <? start)%Z then Z.to_nat ((start - stop - 1) / (- step) + 1)
    else 0
  else
    if (start <? stop)%Z then Z.to_nat ((stop - start - 1) / step + 1)
    else 0.

(** The positions [l[start:stop:step]] selects, in the order of the
    result. *)
Definition slice_positions (len : Z) (start stop : option Z) (step : Z)
  : list nat :=
  let a := slice_start len step start in
  let b := slice_stop len step stop in
  (λ k : nat, Z.to_nat (a + Z.of_nat k * step)) <$> seq 0 (slice_length a b step).

(** [l[start:stop:step]]; a zero step raises [ValueError]. *)
Definition slice {A} (l : list A) (start stop : option Z) (step : Z)
  : result (list A) :=
  if (step =? 0)%Z then Raise ValueError
  else Ok (omap (λ i, l !! i)
             (slice_positions (Z.of_nat (length l)) start stop step)).

(** [l.sort(key=key, reverse=True)]: a stable sort into non-increasing
    key order.  An element is placed before the first element whose key
    does not exceed its own, so among equal keys the earlier one stays
    first. *)
Section Sort.
Context {A : Type} (key : A → Z).

Fixpoint insert_desc (x : A) (l : list A) : list A :=
  match l with
  | [] => [x]
  | y :: l' =>
      if (key y <=? key x)%Z then x :: y :: l' else y :: insert_desc x l'
  end.

Fixpoint sort_desc (l : list A) : list A :=
  match l with
  | [] => []
  | x :: l' => insert_desc x (sort_desc l')
  end.
End Sort.

End Py.

(** ** The capabilities a model and an environment supply *)

(** [Model.score], and the deep copy [copy.deepcopy] makes of a model (its
    [__deepcopy__] when it defines one). *)
Class Model (M : Type) : Type := {
  score : M → Z;
  deepcopy : M → M;
}.

(** [Environment.update]. *)
Class Environment (E : Type) : Type := {
  update : E → E;
}.

(** ** Processes and the scheduler *)

Section Engine.
Context {M Hint Env : Type} `{!Model M} `{!Environment Env}.

(** An instruction mutates the model it is given and returns a list of
    hints of its own, which [Process.execute] then pops from: here it maps
    the model to the model it leaves and the hints.  The environment is
    only read during a round (it changes in [update], between rounds). *)
Definition CodeLine : Type := M → option Hint → Env → M * list Hint.

Record Process : Type := mkProcess {
  resume_ptr : nat;
  hint : option Hint;
  model : M;
}.

Record Sys : Type := mkSys {
  process_list : list Process;
  code : list CodeLine;
}.

Record OperatingSystem : Type := mkOperatingSystem {
  os_sys : Sys;
  os_env : Env;
}.

(** [Process.__init__] *)
Definition Process_init (m : M) (h : option Hint) : Process :=
  {| resume_ptr := 0; hint := h; model := m |}.

(** [Process.clone]: a deep copy of the process with its resume pointer
    and hint overwritten. *)
Definition clone (self : Process) (r : nat) (h : Hint) : Process :=
  {| resume_ptr := r; hint := Some h; model := deepcopy (model self) |}.

(** [Process.score] *)
Definition Process_score (self : Process) : Z := score (model self).

(** [Sys.__init__] *)
Definition Sys_init (initial : M) (c : list CodeLine) : Sys :=
  {| process_list := [Process_init initial None]; code := c |}.

Definition set_process_list (l : list Process) (s : Sys) : Sys :=
  {| process_list := l; code := code s |}.

(** [Sys.add_model] *)
Definition add_model (s : Sys) (p : Process) : Sys :=
  set_process_list (process_list s ++ [p]) s.

(** [Sys.instructions_from]: [enumerate(code[index:], start=index)]. *)
Definition instructions_from (s : Sys) (index : nat) : list (nat * CodeLine) :=
  let rest := drop index (code s) in
  zip (seq index (length rest)) rest.

(** The body of the loop of [Process.execute], for the process stored at
    position [idx] of the population: call the instruction, pop the last
    hint, register a clone per remaining hint. *)
Definition execute_line (idx : nat) (env : Env) (s : Sys)
    (li : nat * CodeLine) : Sys :=
  match process_list s !! idx with
  | None => s
  | Some self =>
      let '(m', hint_list) := li.2 (model self) (hint self) env in
      let '(h', rest) :=
        match Py.pop hint_list with
        | Some (h, rest) => (Some h, rest)
        | None => (None, hint_list)
        end in
      let self' := {| resume_ptr := resume_ptr self; hint := h'; model := m' |} in
      foldl (λ s h, add_model s (clone self' (li.1 + 1) h))
        (set_process_list (<[idx := self']> (process_list s)) s) rest
  end.

Definition reset_resume_ptr (idx : nat) (s : Sys) : Sys :=
  set_process_list
    (alter (λ p, {| resume_ptr := 0; hint := hint p; model := model p |})
       idx (process_list s)) s.

(** [Process.execute] on the process at position [idx]. *)
Definition Process_execute (idx : nat) (env : Env) (s : Sys) : Sys :=
  match process_list s !! idx with
  | None => s
  | Some self =>
      reset_resume_ptr idx
        (foldl (execute_line idx env) s (instructions_from s (resume_ptr self)))
  end.

(** [Sys.execute]: the list iterator holds a position and compares it with
    the current length before every step.  The second component lists the
    positions [Process.execute] was called on, in call order.  [None]: the
    fuel ran out. *)
Fixpoint Sys_execute_from (fuel : nat) (i : nat) (env : Env) (s : Sys)
  : option (Sys * list nat) :=
  match fuel with
  | 0 => None
  | S fuel' =>
      match process_list s !! i with
      | None => Some (s, [])
      | Some _ =>
          match Sys_execute_from fuel' (S i) env (Process_execute i env s) with
          | Some (s', calls) => Some (s', i :: calls)
          | None => None
          end
      end
  end.

Definition Sys_execute (fuel : nat) (env : Env) (s : Sys)
  : option (Sys * list nat) :=
  Sys_execute_from fuel 0 env s.

(** The two branches of [Sys.prune], each computing the kept list [y] from
    the sorted population [x]. *)
Definition prune_first (stride final_count : Z) (x : list Process)
  : Py.result (list Process) :=
  q ← Py.floordiv (Z.of_nat (length x) - final_count) (stride - 1);
  let n := (final_count - q)%Z in
  a ← Py.slice x None (Some n) 1;
  b ← Py.slice x (Some n) None stride;
  mret (a ++ b).

Definition prune_second (final_count : Z) (x : list Process)
  : Py.result (list Process) :=
  q ← Py.floordiv (Z.of_nat (length x)) final_count;
  let new_stride := (q + 1)%Z in
  Py.slice x None None new_stride.

Definition prune_kept (stride final_count : Z) (x : list Process)
  : Py.result (list Process) :=
  if (Z.of_nat (length x) <=? final_count * stride)%Z
  then prune_first stride final_count x
  else prune_second final_count x.

(** [Sys.prune].  The sort is in place: an exception raised after it
    leaves the population sorted. *)
Definition Sys_prune (stride final_count : Z) (s : Sys) : Sys * Py.outcome :=
  if (Z.of_nat (length (process_list s)) <=? final_count)%Z then (s, Py.Returned)
  else
    let x := Py.sort_desc Process_score (process_list s) in
    match prune_kept stride final_count x with
    | Py.Ok y => (set_process_list y s, Py.Returned)
    | Py.Raise e => (set_process_list x s, Py.Raised e)
    end.

(** [OperatingSystem.__init__], [execute] and [prune]. *)
Definition OperatingSystem_init (initial : M) (c : list CodeLine) (env : Env)
  : OperatingSystem :=
  {| os_sys := Sys_init initial c; os_env := env |}.

Definition OperatingSystem_execute (fuel : nat) (os : OperatingSystem)
  : option OperatingSystem :=
  match Sys_execute fuel (os_env os) (os_sys os) with
  | Some (s', _) => Some {| os_sys := s'; os_env := update (os_env os) |}
  | None => None
  end.

Definition OperatingSystem_prune (stride final_count : Z) (os : OperatingSystem)
  : OperatingSystem * Py.outcome :=
  let '(s', o) := Sys_prune stride final_count (os_sys os) in
  ({| os_sys := s'; os_env := os_env os |}, o).

End Engine.

Global Arguments Process : clear implicits.
Global Arguments Sys : clear implicits.
Global Arguments OperatingSystem : clear implicits.
Global Arguments CodeLine : clear implicits.

(** ** The operator's driving loop *)

Section Driver.
Context {M Hint Env : Type} `{!Model M} `{!Environment Env}.

(** A call an operator makes on an [OperatingSystem]. *)
Inductive op : Type :=
| Execute
| Prune (stride final_count : Z).

(** The calls [ops] made in order, as the loop of [main] makes them: the
    states after each call.  An exception ends the run, since nothing
    catches it.  [None]: the fuel ran out. *)
Fixpoint run (fuel : nat) (ops : list op) (os : OperatingSystem M Hint Env)
  : option (list (OperatingSystem M Hint Env)) :=
  match ops with
  | [] => Some []
  | Execute :: ops' =>
      match OperatingSystem_execute fuel os with
      | Some os' => (os' ::.) <$> run fuel ops' os'
      | None => None
      end
  | Prune stride final_count :: ops' =>
      match OperatingSystem_prune stride final_count os with
      | (os', Py.Returned) => (os' ::.) <$> run fuel ops' os'
      | (os', Py.Raised _) => Some [os']
      end
  end.

(** What a test observes of a state: the score and resume pointer at each
    position of the population (its length is the population size). *)
Definition observe (os : OperatingSystem M Hint Env) : list (Z * nat) :=
  (λ p, (Process_score p, resume_ptr p)) <$> process_list (os_sys os).

End Driver.

(** ** Vocabulary of the statements *)

(** [key_ge key a b]: [a] may stand before [b] in non-increasing key order. *)
Definition key_ge {A} (key : A → Z) (a b : A) : Prop := (key b ≤ key a)%Z.

(** The path condition of the first branch of [Sys.prune]: the early return
    is not taken and [len(x) <= final_count * stride] holds. *)
Definition first_branch_taken {M Hint Env} (stride final_count : Z)
    (s : Sys M Hint Env) : bool :=
  let len := Z.of_nat (length (process_list s)) in
  negb (len <=? final_count)%Z && (len <=? final_count * stride)%Z.

(** The arithmetic of [Sys.prune] on a population of [len] processes:
    [keepHead], [newStride], the kept positions of the sorted population and
    their number. *)
Definition ceil_div (a b : Z) : Z := ((a + b - 1) / b)%Z.

Definition keep_head (stride final_count len : Z) : Z :=
  (final_count - (len - final_count) / (stride - 1))%Z.

Definition new_stride (final_count len : Z) : Z := (len / final_count + 1)%Z.

(** Positions [start], [start + step], [start + 2 * step], ... below [len]. *)
Definition every_nth (start step len : Z) : list nat :=
  (λ k : nat, Z.to_nat (start + Z.of_nat k * step))
    <$> seq 0 (Z.to_nat (ceil_div (len - start) step)).

Definition kept_positions (stride final_count len : Z) : list nat :=
  if (len <=? final_count * stride)%Z then
    seq 0 (Z.to_nat (keep_head stride final_count len))
      ++ every_nth (keep_head stride final_count len) stride len
  else every_nth 0 (new_stride final_count len) len.

Definition kept_count (stride final_count len : Z) : Z :=
  if (len <=? final_count * stride)%Z then
    (keep_head stride final_count len
     + ceil_div (len - keep_head stride final_count len) stride)%Z
  else ceil_div len (new_stride final_count len).

(** Two runs may hold models that differ in what no instruction and no
    score reads (an identity drawn afresh by [__deepcopy__]); [R] relates
    the models of the two runs.  [process_sim], [sys_sim] and [os_sim] lift
    it to processes, schedulers and coordinators. *)
Definition process_sim {M Hint} (R : relation M) (p1 p2 : Process M Hint) : Prop :=
  resume_ptr p1 = resume_ptr p2 ∧ hint p1 = hint p2 ∧ R (model p1) (model p2).

Definition sys_sim {M Hint Env} (R : relation M) (s1 s2 : Sys M Hint Env) : Prop :=
  code s1 = code s2 ∧ Forall2 (process_sim R) (process_list s1) (process_list s2).

Definition os_sim {M Hint Env} (R : relation M)
    (os1 os2 : OperatingSystem M Hint Env) : Prop :=
  sys_sim R (os_sys os1) (os_sys os2) ∧ os_env os1 = os_env os2.

(** An instruction is deterministic up to [R]: on related models it returns
    the same hints and leaves related models. *)
Definition instruction_respects {M Hint Env} (R : relation M)
    (instr : CodeLine M Hint Env) : Prop :=
  ∀ m1 m2 h env, R m1 m2 →
    R (instr m1 h env).1 (instr m2 h env).1 ∧ (instr m1 h env).2 = (instr m2 h env).2.

(** The model operations of two runs ([H1], [H2]) and the program [c] are
    deterministic up to [R]. *)
Definition deterministic_up_to {M Hint Env} (R : relation M) (H1 H2 : Model M)
    (c : list (CodeLine M Hint Env)) : Prop :=
  (∀ m1 m2, R m1 m2 → @score M H1 m1 = @score M H2 m2) ∧
  (∀ m1 m2, R m1 m2 → R (@deepcopy M H1 m1) (@deepcopy M H2 m2)) ∧
  Forall (instruction_respects R) c.

(** Two results of a fallible computation agree: related values, or the
    same exception. *)
Definition result_rel {A} (P : A → A → Prop) (r1 r2 : Py.result A) : Prop :=
  match r1, r2 with
  | Py.Ok a, Py.Ok b => P a b
  | Py.Raise e1, Py.Raise e2 => e1 = e2
  | _, _ => False
  end.

(** The population weighed by the resume pointers of its processes. *)
Definition mass {M Hint} (w : nat → nat) (l : list (Process M Hint)) : nat :=
  sum_list_with (λ p, w (resume_ptr p)) l.

(** The environments a run goes through: [execute] updates the environment
    once, [prune] leaves it. *)
Definition env_after {Env} `{!Environment Env} : list op → Env → list Env :=
  fix go ops env :=
    match ops with
    | [] => []
    | Execute :: ops' => update env :: go ops' (update env)
    | Prune _ _ :: ops' => env :: go ops' env
    end.

Definition final_count_positive (o : op) : Prop :=
  match o with
  | Execute => True
  | Prune _ final_count => (1 ≤ final_count)%Z
  end.

(** The state between two calls of the operator: the program is [c], the
    population is not empty and every process is due to start at line 0. *)
Definition between_calls {M Hint Env} (c : list (CodeLine M Hint Env))
    (os : OperatingSystem M Hint Env) : Prop :=
  code (os_sys os) = c ∧
  process_list (os_sys os) ≠ [] ∧
  Forall (λ p, resume_ptr p = 0) (process_list (os_sys os)).

(** ** The demonstration program of [main.py] *)

Module Main.

Record MainEnvironment : Type := mkMainEnvironment { clock : nat }.

Global Instance MainEnvironment_Environment : Environment MainEnvironment :=
  {| update := λ e, {| clock := clock e + 1 |} |}.

Definition ModelHint : Type := Z.

Record MainModel : Type := mkMainModel { unique_name : Z; value : Z }.

(** [MainModel.__deepcopy__]: a new model of the same value whose name is
    drawn afresh; [draw] stands for the [random.random()] of the run. *)
Definition MainModel_deepcopy (draw : Z → Z) (self : MainModel) : MainModel :=
  {| unique_name := draw (unique_name self); value := value self |}.

Definition MainModel_Model (draw : Z → Z) : Model MainModel :=
  {| score := value; deepcopy := MainModel_deepcopy draw |}.

Definition add_hint (self : MainModel) (hint : option ModelHint) : MainModel :=
  match hint with
  | Some h => {| unique_name := unique_name self; value := value self + h |}
  | None => self
  end.

Definition step_one_incr : CodeLine MainModel ModelHint MainEnvironment :=
  λ self hint env, (add_hint self hint, []).

Definition step_two_test : CodeLine MainModel ModelHint MainEnvironment :=
  λ self _ _, (self, if (value self mod 2 =? 0)%Z then [1; 2]%Z else [3]%Z).

Definition step_thr_incr : CodeLine MainModel ModelHint MainEnvironment :=
  λ self hint env, (add_hint self hint, [1; 2]%Z).

(** The [print] of [step_fou_prin] is not modelled. *)
Definition step_fou_prin : CodeLine MainModel ModelHint MainEnvironment :=
  λ self hint env, (self, match hint with Some h => [h] | None => [] end).

Definition program : list (CodeLine MainModel ModelHint MainEnvironment) :=
  [step_one_incr; step_two_test; step_thr_incr; step_fou_prin].

(** A two-line program: pass the hint on, incremented, then fork on the
    parity of the value. *)
Definition pass_hint : CodeLine MainModel ModelHint MainEnvironment :=
  λ self hint env, (self, match hint with Some h => [h + 1]%Z | None => [] end).

Definition two_line_program : list (CodeLine MainModel ModelHint MainEnvironment) :=
  [pass_hint; step_two_test].

Definition initial_model : MainModel := {| unique_name := 0; value := 0 |}.

Definition initial_env : MainEnvironment := {| clock := 0 |}.

Definition initial_process : Process MainModel ModelHint :=
  Process_init initial_model None.

(** The names two runs draw. *)
Definition draw_a : Z → Z := λ n, (n + 1)%Z.
Definition draw_b : Z → Z := λ n, (2 * n + 7)%Z.

Definition model_a : Model MainModel := MainModel_Model draw_a.
Definition model_b : Model MainModel := MainModel_Model draw_b.

(** Models of equal value, whatever their names. *)
Definition same_value : relation MainModel := λ a b, value a = value b.

(** Twelve processes of scores 1 to 12, in no particular order. *)
Definition population12 : Sys MainModel ModelHint MainEnvironment :=
  {| process_list :=
       (λ v, Process_init {| unique_name := v; value := v |} None)
         <$> [3; 7; 1; 12; 5; 9; 2; 11; 4; 10; 6; 8]%Z;
     code := program |}.

End Main.

(** * Properties *)

(** ** The stable descending sort *)

Section SortFacts.
Context {A : Type} (key : A → Z).

Lemma insert_desc_Permutation x l : Py.insert_desc key x l ≡ₚ x :: l.
Proof.
  induction l as [|y l IH]; simpl; [done|].
  destruct (key y <=? key x)%Z; [done|].
  rewrite IH. apply Permutation_swap.
Qed.

Lemma sort_desc_Permutation l : Py.sort_desc key l ≡ₚ l.
Proof.
  induction l as [|x l IH]; simpl; [done|].
  by rewrite insert_desc_Permutation, IH.
Qed.

Lemma sort_desc_length l : length (Py.sort_desc key l) = length l.
Proof. by rewrite sort_desc_Permutation. Qed.

Lemma insert_desc_sorted x l :
  StronglySorted (key_ge key) l →
  StronglySorted (key_ge key) (Py.insert_desc key x l).
Proof.
  induction 1 as [|y l Hl IH Hy]; simpl.
  - repeat constructor.
  - destruct (Z.leb_spec (key y) (key x)) as [Hle|Hlt].
    + constructor; [by constructor|].
      constructor; [done|].
      eapply Forall_impl; [exact Hy|]. unfold key_ge. intros z ?. lia.
    + constructor; [done|].
      rewrite insert_desc_Permutation. constructor; [|done].
      unfold key_ge. lia.
Qed.

Lemma sort_desc_sorted l : StronglySorted (key_ge key) (Py.sort_desc key l).
Proof.
  induction l as [|x l IH]; simpl; [constructor|].
  by apply insert_desc_sorted.
Qed.

(** Stability: the elements of any one key keep their relative order. *)
Lemma insert_desc_filter v x l :
  filter (λ a, key a = v) (Py.insert_desc key x l)
  = filter (λ a, key a = v) (x :: l).
Proof.
  induction l as [|y l IH]; simpl; [done|].
  destruct (Z.leb_spec (key y) (key x)) as [Hle|Hlt]; [done|].
  rewrite filter_cons, IH, !filter_cons.
  repeat case_decide; try done; lia.
Qed.

Lemma sort_desc_filter v l :
  filter (λ a, key a = v) (Py.sort_desc key l) = filter (λ a, key a = v) l.
Proof.
  induction l as [|x l IH]; simpl; [done|].
  by rewrite insert_desc_filter, !filter_cons, IH.
Qed.

End SortFacts.

(** ** Slices and the arithmetic of [Sys.prune] *)

Section PruneArith.
Local Open Scope Z_scope.

Lemma fmap_seq_id (f : nat → nat) n : (∀ k, f k = k) → f <$> seq 0 n = seq 0 n.
Proof.
  intros Hf. rewrite <-(list_fmap_id (seq 0 n)) at 2.
  apply list_fmap_ext. intros ???. apply Hf.
Qed.

Lemma slice_positions_head len n :
  0 ≤ n ≤ len → Py.slice_positions len None (Some n) 1 = seq 0 (Z.to_nat n).
Proof.
  intros Hn. unfold Py.slice_positions, Py.slice_start, Py.slice_stop, Py.adjust,
    Py.slice_length.
  replace (1 <? 0) with false by done.
  assert (Hstop : (if n <? 0 then if n + len <? 0 then 0 else n + len
                   else if len <=? n then len else n) = n).
  { destruct (Z.ltb_spec n 0); [lia|]. destruct (Z.leb_spec len n); lia. }
  rewrite Hstop.
  destruct (Z.ltb_spec 0 n).
  - rewrite Z.div_1_r. replace (Z.to_nat (n - 0 - 1 + 1)) with (Z.to_nat n) by lia.
    apply fmap_seq_id. intros k. lia.
  - replace n with 0 by lia. done.
Qed.

Lemma ceil_div_slice_length a s :
  0 < s → 0 ≤ a → Z.to_nat (ceil_div a s) = if 0 <? a then Z.to_nat ((a - 1) / s + 1) else 0%nat.
Proof.
  intros Hs Ha. unfold ceil_div.
  destruct (Z.ltb_spec 0 a).
  - f_equal. replace (a + s - 1) with ((a - 1) + 1 * s) by lia.
    rewrite Z.div_add by lia. done.
  - replace a with 0 by lia. rewrite Z.div_small by lia. done.
Qed.

Lemma slice_positions_from len n s :
  0 ≤ n ≤ len → 0 < s →
  Py.slice_positions len (Some n) None s = every_nth n s len.
Proof.
  intros Hn Hs. unfold Py.slice_positions, Py.slice_start, Py.slice_stop, Py.adjust,
    Py.slice_length, every_nth.
  destruct (Z.ltb_spec s 0); [lia|].
  assert (Hstart : (if n <? 0 then if n + len <? 0 then 0 else n + len
                   else if len <=? n then len else n) = n).
  { destruct (Z.ltb_spec n 0); [lia|]. destruct (Z.leb_spec len n); lia. }
  rewrite Hstart, ceil_div_slice_length by lia.
  destruct (Z.ltb_spec n len), (Z.ltb_spec 0 (len - n)); try lia; done.
Qed.

Lemma slice_positions_all len s :
  0 ≤ len → 0 < s → Py.slice_positions len None None s = every_nth 0 s len.
Proof.
  intros Hn Hs. unfold Py.slice_positions, Py.slice_start, Py.slice_stop,
    Py.slice_length, every_nth.
  destruct (Z.ltb_spec s 0); [lia|].
  rewrite ceil_div_slice_length by lia. rewrite !Z.sub_0_r.
  destruct (Z.ltb_spec 0 len); done.
Qed.

Lemma keep_head_range stride final_count len :
  2 ≤ stride → final_count < len ≤ final_count * stride →
  0 ≤ keep_head stride final_count len ≤ final_count.
Proof.
  intros Hs Hl. unfold keep_head.
  assert (0 ≤ (len - final_count) / (stride - 1)) by (apply Z.div_pos; lia).
  assert ((len - final_count) / (stride - 1) ≤ final_count).
  { apply Z.div_le_upper_bound; lia. }
  lia.
Qed.

Section PruneKept.
Context {M Hint Env : Type} `{!Model M}.
Implicit Types x : list (Process M Hint).

Lemma prune_kept_in_range stride final_count x :
  2 ≤ stride → 1 ≤ final_count → final_count < Z.of_nat (length x) →
  prune_kept stride final_count x
  = Py.Ok (omap (λ i, x !! i) (kept_positions stride final_count (Z.of_nat (length x)))).
Proof.
  intros Hs Hf Hl.
  unfold prune_kept, prune_first, prune_second, kept_positions, Py.floordiv, Py.slice.
  destruct (Z.leb_spec (Z.of_nat (length x)) (final_count * stride)) as [Hle|Hgt].
  - destruct (Z.eqb_spec (stride - 1) 0); [lia|]. simpl.
    destruct (Z.eqb_spec stride 0); [lia|]. simpl.
    pose proof (keep_head_range stride final_count (Z.of_nat (length x)) Hs
      (conj Hl Hle)) as Hk. fold (keep_head stride final_count (Z.of_nat (length x))).
    rewrite slice_positions_head, slice_positions_from by lia.
    by rewrite omap_app.
  - destruct (Z.eqb_spec final_count 0); [lia|]. simpl.
    fold (new_stride final_count (Z.of_nat (length x))).
    assert (0 ≤ Z.of_nat (length x) / final_count) by (apply Z.div_pos; lia).
    assert (0 < new_stride final_count (Z.of_nat (length x))) by (unfold new_stride; lia).
    destruct (Z.eqb_spec (new_stride final_count (Z.of_nat (length x))) 0); [lia|].
    by rewrite slice_positions_all by lia.
Qed.
End PruneKept.

Lemma fmap_seq_sorted (f : nat → nat) a n :
  (∀ i j, (i < j)%nat → (f i < f j)%nat) → StronglySorted lt (f <$> seq a n).
Proof.
  intros Hf. revert a. induction n as [|n IH]; intros a; simpl; [constructor|].
  constructor; [apply IH|].
  apply Forall_fmap, Forall_seq. intros j Hj. simpl. apply Hf. lia.
Qed.

Lemma ceil_div_bound a s : 0 < s → (ceil_div a s - 1) * s < a ∧ a ≤ ceil_div a s * s.
Proof.
  intros Hs. unfold ceil_div.
  pose proof (Z.div_mod (a + s - 1) s ltac:(lia)).
  pose proof (Z.mod_pos_bound (a + s - 1) s Hs). nia.
Qed.

Lemma every_nth_sorted start step len :
  0 ≤ start → 0 < step → StronglySorted lt (every_nth start step len).
Proof.
  intros Ha Hs. apply fmap_seq_sorted. intros i j Hij. nia.
Qed.

Lemma every_nth_bounds start step len :
  0 ≤ start → 0 < step →
  Forall (λ i, (Z.to_nat start ≤ i)%nat ∧ Z.of_nat i < len) (every_nth start step len).
Proof.
  intros Ha Hs. apply Forall_fmap, Forall_seq. intros k Hk. simpl.
  pose proof (ceil_div_bound (len - start) step Hs). split; nia.
Qed.

Lemma every_nth_length start step len :
  length (every_nth start step len) = Z.to_nat (ceil_div (len - start) step).
Proof. unfold every_nth. by rewrite length_fmap, length_seq. Qed.

Lemma ceil_div_pos a s : 0 < s → 0 < a → 0 < ceil_div a s.
Proof. intros Hs Ha. pose proof (ceil_div_bound a s Hs). nia. Qed.

Lemma ceil_div_nonneg a s : 0 < s → 0 ≤ a → 0 ≤ ceil_div a s.
Proof. intros Hs Ha. unfold ceil_div. apply Z.div_pos; lia. Qed.

Lemma every_nth_head start step len :
  0 ≤ start < len → 0 < step → every_nth start step len !! 0%nat = Some (Z.to_nat start).
Proof.
  intros Ha Hs. unfold every_nth.
  pose proof (ceil_div_pos (len - start) step Hs ltac:(lia)).
  destruct (Z.to_nat (ceil_div (len - start) step)) as [|n] eqn:E; [lia|].
  simpl. f_equal. lia.
Qed.

Section KeptPositions.
Context (stride final_count len : Z).
Hypothesis Hstride : 2 ≤ stride.
Hypothesis Hfinal : 1 ≤ final_count.
Hypothesis Hlen : final_count < len.

Lemma new_stride_pos : 2 ≤ new_stride final_count len.
Proof.
  unfold new_stride.
  assert (1 ≤ len / final_count) by (apply Z.div_le_lower_bound; lia). lia.
Qed.

Lemma kept_positions_sorted :
  StronglySorted lt (kept_positions stride final_count len).
Proof.
  unfold kept_positions. destruct (Z.leb_spec len (final_count * stride)) as [Hle|Hgt].
  - pose proof (keep_head_range stride final_count len Hstride (conj Hlen Hle)).
    apply StronglySorted_app.
    split_and!.
    + intros i j Hi Hj. apply elem_of_seq in Hi.
      pose proof (every_nth_bounds (keep_head stride final_count len) stride len
        ltac:(lia) ltac:(lia)) as Hb.
      rewrite Forall_forall in Hb. apply Hb in Hj. lia.
    + rewrite <-(list_fmap_id (seq _ _)). by apply fmap_seq_sorted.
    + apply every_nth_sorted; lia.
  - pose proof new_stride_pos. apply every_nth_sorted; lia.
Qed.

Lemma kept_positions_bound :
  Forall (λ i, Z.of_nat i < len) (kept_positions stride final_count len).
Proof.
  unfold kept_positions. destruct (Z.leb_spec len (final_count * stride)) as [Hle|Hgt].
  - pose proof (keep_head_range stride final_count len Hstride (conj Hlen Hle)).
    apply Forall_app. split.
    + apply Forall_seq. intros. lia.
    + eapply Forall_impl; [apply every_nth_bounds; lia|]. by intros i [_ ?].
  - pose proof new_stride_pos.
    eapply Forall_impl; [apply every_nth_bounds; lia|]. by intros i [_ ?].
Qed.

Lemma kept_positions_head : kept_positions stride final_count len !! 0%nat = Some 0%nat.
Proof.
  unfold kept_positions. destruct (Z.leb_spec len (final_count * stride)) as [Hle|Hgt].
  - pose proof (keep_head_range stride final_count len Hstride (conj Hlen Hle)).
    destruct (Z.to_nat (keep_head stride final_count len)) as [|n] eqn:E.
    + simpl. rewrite every_nth_head by lia. f_equal. lia.
    + done.
  - pose proof new_stride_pos. rewrite every_nth_head by lia. done.
Qed.

Lemma kept_positions_length :
  Z.of_nat (length (kept_positions stride final_count len))
  = kept_count stride final_count len.
Proof.
  unfold kept_positions, kept_count.
  destruct (Z.leb_spec len (final_count * stride)) as [Hle|Hgt].
  - pose proof (keep_head_range stride final_count len Hstride (conj Hlen Hle)).
    rewrite length_app, length_seq, every_nth_length.
    pose proof (ceil_div_nonneg (len - keep_head stride final_count len) stride). lia.
  - pose proof new_stride_pos. rewrite every_nth_length, Z.sub_0_r.
    pose proof (ceil_div_nonneg len (new_stride final_count len)). lia.
Qed.

(** In the first branch the count is [final_count] when [stride - 1] divides
    the excess [len - final_count], and [final_count + 1] otherwise; in the
    second branch it is at most [final_count]. *)
Lemma kept_count_first :
  len ≤ final_count * stride →
  kept_count stride final_count len
  = if decide ((len - final_count) mod (stride - 1) = 0) then final_count
    else final_count + 1.
Proof.
  intros Hle. unfold kept_count. rewrite (proj2 (Z.leb_le _ _)) by done.
  unfold keep_head. set (d := len - final_count). set (t := stride - 1).
  pose proof (Z.div_mod d t ltac:(lia)) as Hdm.
  pose proof (Z.mod_pos_bound d t ltac:(lia)) as Hmod.
  assert (Hq : t * (d / t) = d / t * stride - d / t) by (unfold t; ring).
  replace (len - (final_count - d / t)) with (d / t * stride + d mod t) by (unfold d in *; lia).
  assert (0 ≤ d / t) by (apply Z.div_pos; lia).
  unfold ceil_div.
  case_decide as Hz.
  - rewrite Hz.
    replace (d / t * stride + 0 + stride - 1) with ((stride - 1) + d / t * stride) by lia.
    rewrite Z.div_add, (Z.div_small (stride - 1) stride) by lia. lia.
  - replace (d / t * stride + d mod t + stride - 1) with ((d mod t - 1) + (d / t + 1) * stride) by lia.
    rewrite Z.div_add, (Z.div_small (d mod t - 1) stride) by lia. lia.
Qed.

Lemma kept_count_second :
  final_count * stride < len →
  1 ≤ kept_count stride final_count len ≤ final_count.
Proof.
  intros Hgt. unfold kept_count. rewrite (proj2 (Z.leb_gt _ _)) by done.
  pose proof new_stride_pos as Hn.
  pose proof (ceil_div_bound len (new_stride final_count len) ltac:(lia)) as Hc.
  pose proof (ceil_div_pos len (new_stride final_count len) ltac:(lia) ltac:(lia)).
  split; [lia|]. unfold new_stride in *.
  pose proof (Z.div_mod len final_count ltac:(lia)).
  pose proof (Z.mod_pos_bound len final_count ltac:(lia)). nia.
Qed.

Lemma kept_count_range :
  1 ≤ kept_count stride final_count len ≤ final_count + 1.
Proof.
  destruct (Z.le_gt_cases len (final_count * stride)) as [Hle|Hgt].
  - rewrite kept_count_first by done. case_decide; lia.
  - pose proof (kept_count_second Hgt). lia.
Qed.

End KeptPositions.

End PruneArith.

(** ** Picking positions out of a sorted list *)

Section Picking.
Context {A : Type}.
Implicit Types (l : list A) (ps : list nat).

Lemma StronglySorted_lookup (R : relation A) l i j x y :
  StronglySorted R l → i < j → l !! i = Some x → l !! j = Some y → R x y.
Proof.
  intros Hl. revert i j. induction Hl as [|z l Hl IH Hz]; intros i j Hij Hi Hj; [done|].
  destruct j as [|j]; [lia|]. destruct i as [|i]; simpl in *.
  - simplify_eq. rewrite Forall_forall in Hz. apply Hz.
    by eapply list_elem_of_lookup_2.
  - eapply (IH i j); [lia|done..].
Qed.

Lemma omap_lookup_Forall2 l ps :
  Forall (λ i, i < length l) ps →
  Forall2 (λ i y, l !! i = Some y) ps (omap (λ i, l !! i) ps).
Proof.
  induction 1 as [|i ps Hi _ IH]; simpl; [constructor|].
  destruct (lookup_lt_is_Some_2 l i Hi) as [y Hy]. rewrite Hy. simpl.
  by constructor.
Qed.

Lemma picked_sorted (R : relation A) l ps ys :
  StronglySorted R l → StronglySorted lt ps →
  Forall2 (λ i y, l !! i = Some y) ps ys → StronglySorted R ys.
Proof.
  intros Hl Hps Hys. induction Hys as [|i y ps ys Hy Hys IH]; [constructor|].
  apply StronglySorted_inv in Hps as [Hps Hi].
  constructor; [by apply IH|].
  clear IH. induction Hys as [|j z ps ys Hz Hys IH]; [constructor|].
  apply Forall_cons in Hi as [Hij Hi]. apply StronglySorted_inv in Hps as [Hps _].
  constructor; [|by apply IH].
  by eapply (StronglySorted_lookup R l i j).
Qed.

Lemma picked_elem_of l ps ys y :
  Forall2 (λ i y, l !! i = Some y) ps ys → y ∈ ys → y ∈ l.
Proof.
  intros Hys Hy. apply list_elem_of_lookup in Hy as [k Hk].
  destruct (Forall2_lookup_r _ _ _ _ _ Hys Hk) as (i & _ & Hi).
  by eapply list_elem_of_lookup_2.
Qed.
End Picking.

(** ** [Sys.prune] on well-formed configurations *)

Section PruneFacts.
Context {M Hint Env : Type} `{!Model M}.
Implicit Types s : Sys M Hint Env.
Local Open Scope Z_scope.

Lemma Sys_prune_noop stride final_count s :
  Z.of_nat (length (process_list s)) ≤ final_count →
  Sys_prune stride final_count s = (s, Py.Returned).
Proof. intros Hle. unfold Sys_prune. by rewrite (proj2 (Z.leb_le _ _)). Qed.

Lemma Sys_prune_in_range stride final_count s :
  2 ≤ stride → 1 ≤ final_count →
  final_count < Z.of_nat (length (process_list s)) →
  Sys_prune stride final_count s
  = (set_process_list
       (omap (λ i, Py.sort_desc Process_score (process_list s) !! i)
          (kept_positions stride final_count (Z.of_nat (length (process_list s)))))
       s, Py.Returned).
Proof.
  intros Hs Hf Hl. unfold Sys_prune. rewrite (proj2 (Z.leb_gt _ _)) by done.
  rewrite prune_kept_in_range by (by rewrite ?sort_desc_length).
  by rewrite sort_desc_length.
Qed.

Lemma Sys_prune_picks stride final_count s :
  2 ≤ stride → 1 ≤ final_count →
  final_count < Z.of_nat (length (process_list s)) →
  Forall2 (λ i p, Py.sort_desc Process_score (process_list s) !! i = Some p)
    (kept_positions stride final_count (Z.of_nat (length (process_list s))))
    (process_list (Sys_prune stride final_count s).1).
Proof.
  intros Hs Hf Hl. rewrite Sys_prune_in_range by done. simpl.
  apply omap_lookup_Forall2. rewrite sort_desc_length.
  eapply Forall_impl; [by apply kept_positions_bound|]. simpl. lia.
Qed.

Lemma sort_desc_head_max (l : list (Process M Hint)) p q :
  Py.sort_desc Process_score l !! 0%nat = Some p → q ∈ l →
  Process_score q ≤ Process_score p.
Proof.
  intros Hp Hq. rewrite <-(sort_desc_Permutation Process_score) in Hq.
  pose proof (sort_desc_sorted Process_score l) as Hsorted.
  apply list_elem_of_lookup in Hq as [[|j] Hj]; [by simplify_eq|].
  by apply (StronglySorted_lookup _ _ 0%nat (S j) p q Hsorted); [lia|..].
Qed.

(** C4.  With [stride >= 2] and [final_count >= 1], [Sys.prune] returns
    normally and never increases the population size; a population of at
    most [final_count] processes is left unchanged; a larger one is cut to
    exactly [kept_count] processes, among them a process whose score no
    process of the old population exceeds. *)
Theorem prune_monotone stride final_count s :
  2 ≤ stride → 1 ≤ final_count →
  (Sys_prune stride final_count s).2 = Py.Returned ∧
  (length (process_list (Sys_prune stride final_count s).1)
   ≤ length (process_list s))%nat ∧
  (Z.of_nat (length (process_list s)) ≤ final_count →
   (Sys_prune stride final_count s).1 = s) ∧
  (final_count < Z.of_nat (length (process_list s)) →
   Z.of_nat (length (process_list (Sys_prune stride final_count s).1))
   = kept_count stride final_count (Z.of_nat (length (process_list s))) ∧
   ∃ p, p ∈ process_list (Sys_prune stride final_count s).1 ∧
        p ∈ process_list s ∧
        ∀ q, q ∈ process_list s → Process_score q ≤ Process_score p).
Proof.
  intros Hs Hf.
  destruct (Z.le_gt_cases (Z.of_nat (length (process_list s))) final_count)
    as [Hle|Hgt].
  { rewrite Sys_prune_noop by done. simpl. split_and!; [done..|lia]. }
  pose proof (Sys_prune_picks stride final_count s Hs Hf Hgt) as Hpick.
  pose proof (kept_positions_length _ _ _ Hs Hf Hgt) as Hlen.
  pose proof (kept_count_range _ _ _ Hs Hf Hgt) as Hcount.
  apply Forall2_length in Hpick as Hlen'.
  split_and!.
  - by rewrite Sys_prune_in_range.
  - lia.
  - lia.
  - intros _. split; [lia|].
    pose proof (kept_positions_head _ _ _ Hs Hf Hgt) as Hhead.
    destruct (Forall2_lookup_l _ _ _ _ _ Hpick Hhead) as (p & Hp & Hsorted).
    exists p. split_and!.
    + by eapply list_elem_of_lookup_2.
    + rewrite <-(sort_desc_Permutation Process_score). by eapply list_elem_of_lookup_2.
    + intros q Hq. by eapply sort_desc_head_max.
Qed.

(** C10.  With [stride >= 2] and [final_count >= 1], a population larger
    than [final_count] is replaced by the elements of the descending-sorted
    population at the strictly increasing positions [kept_positions] (the
    first [keep_head] positions followed by every [stride]-th from
    [keep_head] in the first branch, every [new_stride]-th from 0 in the
    second), so the result is in non-increasing score order. *)
Theorem prune_result_descending stride final_count s :
  2 ≤ stride → 1 ≤ final_count →
  final_count < Z.of_nat (length (process_list s)) →
  let len := Z.of_nat (length (process_list s)) in
  let ps := kept_positions stride final_count len in
  Forall2 (λ i p, Py.sort_desc Process_score (process_list s) !! i = Some p)
    ps (process_list (Sys_prune stride final_count s).1) ∧
  StronglySorted lt ps ∧
  (len ≤ final_count * stride →
   ps = seq 0 (Z.to_nat (keep_head stride final_count len))
        ++ every_nth (keep_head stride final_count len) stride len) ∧
  (final_count * stride < len →
   ps = every_nth 0 (new_stride final_count len) len) ∧
  StronglySorted (key_ge Process_score)
    (process_list (Sys_prune stride final_count s).1).
Proof.
  intros Hs Hf Hgt len ps.
  pose proof (Sys_prune_picks stride final_count s Hs Hf Hgt) as Hpick.
  pose proof (kept_positions_sorted _ _ _ Hs Hf Hgt) as Hps.
  split_and!; [done..| | |].
  - intros Hle. unfold ps, kept_positions. by rewrite (proj2 (Z.leb_le _ _)).
  - intros Hlt. unfold ps, kept_positions. by rewrite (proj2 (Z.leb_gt _ _)).
  - eapply picked_sorted; [apply (sort_desc_sorted Process_score)|exact Hps|exact Hpick].
Qed.

End PruneFacts.

(** ** [Sys.prune] on degenerate configurations *)

Section Degenerate.
Context {M Hint Env : Type} `{!Model M}.
Implicit Types s : Sys M Hint Env.
Local Open Scope Z_scope.

Lemma slice_outcome {A} (l : list A) start stop step :
  (step = 0 ∧ Py.slice l start stop step = Py.Raise Py.ValueError) ∨
  (step ≠ 0 ∧ ∃ y, Py.slice l start stop step = Py.Ok y).
Proof.
  unfold Py.slice. destruct (Z.eqb_spec step 0); [by left|right; eauto].
Qed.

Lemma prune_first_no_zero_division stride final_count (x : list (Process M Hint)) :
  stride ≠ 1 →
  prune_first stride final_count x ≠ Py.Raise Py.ZeroDivisionError.
Proof.
  intros Hs. unfold prune_first, Py.floordiv, Py.slice.
  destruct (Z.eqb_spec (stride - 1) 0); [lia|]. simpl.
  by destruct (Z.eqb_spec stride 0).
Qed.

Lemma prune_second_zero_division final_count (x : list (Process M Hint)) :
  prune_second final_count x = Py.Raise Py.ZeroDivisionError ↔ final_count = 0.
Proof.
  unfold prune_second, Py.floordiv, Py.slice.
  destruct (Z.eqb_spec final_count 0) as [->|Hne]; [done|]. simpl.
  by destruct (Z.eqb_spec (Z.of_nat (length x) / final_count + 1) 0).
Qed.

Lemma prune_second_returns final_count (x : list (Process M Hint)) :
  1 ≤ final_count → ∃ y, prune_second final_count x = Py.Ok y.
Proof.
  intros Hf. unfold prune_second, Py.floordiv, Py.slice.
  destruct (Z.eqb_spec final_count 0); [lia|]. simpl.
  assert (0 ≤ Z.of_nat (length x) / final_count) by (apply Z.div_pos; lia).
  destruct (Z.eqb_spec (Z.of_nat (length x) / final_count + 1) 0); [lia|eauto].
Qed.

(** The only division by zero [Sys.prune] can execute is [len(x) //
    final_count] of the second branch. *)
Lemma Sys_prune_zero_division stride final_count s :
  (Sys_prune stride final_count s).2 = Py.Raised Py.ZeroDivisionError
  ↔ final_count = 0 ∧ process_list s ≠ [].
Proof.
  unfold Sys_prune, prune_kept. rewrite sort_desc_length.
  set (x := Py.sort_desc Process_score (process_list s)).
  destruct (Z.leb_spec (Z.of_nat (length (process_list s))) final_count) as [Hle|Hgt].
  { simpl. split; [done|]. intros [-> Hne]. destruct (process_list s); [done|].
    simpl in Hle. lia. }
  destruct (Z.leb_spec (Z.of_nat (length (process_list s))) (final_count * stride))
    as [Hle2|Hgt2].
  - assert (stride ≠ 1) as Hs by lia.
    pose proof (prune_first_no_zero_division stride final_count x Hs) as Hno.
    destruct (prune_first stride final_count x) as [y|e]; simpl.
    + split; [done|]. intros [-> _]. lia.
    + split; [intros [= ->]; done|]. intros [-> _]. lia.
  - pose proof (prune_second_zero_division final_count x) as Hz.
    destruct (prune_second final_count x) as [y|e]; simpl.
    + split; [done|]. intros [Hf _]. by apply Hz in Hf.
    + split.
      * intros [= ->]. split; [by apply Hz|]. intros Hnil. rewrite Hnil in Hgt.
        simpl in Hgt. assert (final_count = 0) by (by apply Hz). lia.
      * intros [Hf _]. apply Hz in Hf. by simplify_eq.
Qed.

Lemma first_branch_taken_stride_one final_count s :
  first_branch_taken 1 final_count s = false.
Proof.
  unfold first_branch_taken. rewrite Z.mul_1_r.
  by destruct (Z.leb_spec (Z.of_nat (length (process_list s))) final_count).
Qed.

Lemma Sys_prune_second_branch stride final_count s :
  first_branch_taken stride final_count s = false →
  Sys_prune stride final_count s
  = if Z.of_nat (length (process_list s)) <=? final_count then (s, Py.Returned)
    else
      let x := Py.sort_desc Process_score (process_list s) in
      match prune_second final_count x with
      | Py.Ok y => (set_process_list y s, Py.Returned)
      | Py.Raise e => (set_process_list x s, Py.Raised e)
      end.
Proof.
  unfold first_branch_taken, Sys_prune, prune_kept. rewrite sort_desc_length.
  destruct (Z.leb_spec (Z.of_nat (length (process_list s))) final_count); [done|].
  simpl. by intros ->.
Qed.

Lemma Sys_prune_returns_low_stride stride final_count s :
  stride ≤ 1 → 1 ≤ final_count →
  (Sys_prune stride final_count s).2 = Py.Returned.
Proof.
  intros Hs Hf. rewrite Sys_prune_second_branch.
  - destruct (Z.leb_spec (Z.of_nat (length (process_list s))) final_count); [done|].
    simpl. by destruct (prune_second_returns final_count
      (Py.sort_desc Process_score (process_list s)) Hf) as [y ->].
  - unfold first_branch_taken.
    destruct (Z.leb_spec (Z.of_nat (length (process_list s))) final_count); [done|].
    simpl. apply Z.leb_gt. nia.
Qed.

(** C7, as the code has it.  At [stride = 1] the first branch of
    [Sys.prune] is never taken, so [stride - 1] never divides; the call
    raises [ZeroDivisionError] exactly when [final_count = 0] on a non-empty
    population (the division [len(x) // final_count] of the second branch),
    and returns normally when [final_count >= 1]. *)
Theorem prune_stride_one final_count s :
  first_branch_taken 1 final_count s = false ∧
  ((Sys_prune 1 final_count s).2 = Py.Raised Py.ZeroDivisionError
   ↔ final_count = 0 ∧ process_list s ≠ []) ∧
  (1 ≤ final_count → (Sys_prune 1 final_count s).2 = Py.Returned).
Proof.
  split_and!.
  - apply first_branch_taken_stride_one.
  - apply Sys_prune_zero_division.
  - intros Hf. by apply Sys_prune_returns_low_stride.
Qed.

(** C8, as the code has it.  [Sys.prune] has no guard for [stride <= 1] or
    [final_count <= 0]: a division by zero is executed exactly when
    [final_count = 0] and the population is non-empty; with [stride <= 1]
    and [final_count >= 1] the first branch is not taken and the call
    returns normally; a population of at most [final_count] processes is
    returned unchanged. *)
Theorem prune_degenerate stride final_count s :
  stride ≤ 1 ∨ final_count ≤ 0 →
  ((Sys_prune stride final_count s).2 = Py.Raised Py.ZeroDivisionError
   ↔ final_count = 0 ∧ process_list s ≠ []) ∧
  (stride ≤ 1 → 1 ≤ final_count →
   first_branch_taken stride final_count s = false ∧
   (Sys_prune stride final_count s).2 = Py.Returned) ∧
  (Z.of_nat (length (process_list s)) ≤ final_count →
   Sys_prune stride final_count s = (s, Py.Returned)).
Proof.
  intros _. split_and!.
  - apply Sys_prune_zero_division.
  - intros Hs Hf. split; [|by apply Sys_prune_returns_low_stride].
    unfold first_branch_taken.
    destruct (Z.leb_spec (Z.of_nat (length (process_list s))) final_count); [done|].
    simpl. apply Z.leb_gt. nia.
  - apply Sys_prune_noop.
Qed.

End Degenerate.

(** ** The pruning scenario *)

Section Scenario.
Context {M Hint Env : Type} `{!Model M}.
Implicit Types s : Sys M Hint Env.
Local Open Scope Z_scope.

Lemma sort_desc_scores (l : list (Process M Hint)) (ks : list Z) :
  Process_score <$> l ≡ₚ ks → StronglySorted (flip Z.le) ks →
  Process_score <$> Py.sort_desc Process_score l = ks.
Proof.
  intros Hperm Hks.
  apply (StronglySorted_unique_strong (flip Z.le)).
  - intros a b _ _ Hab Hba. unfold flip in *. lia.
  - eapply StronglySorted_fmap; [|apply (sort_desc_sorted Process_score)].
    intros a b Hab. exact Hab.
  - done.
  - by rewrite sort_desc_Permutation.
Qed.

(** C5.  A population whose scores are 1..12 in any order, pruned with
    [stride = 3] and [final_count = 5]: the first branch is taken with
    [keep_head = 2], and the population becomes the processes at positions
    0, 1, 2, 5, 8, 11 of the descending order (ranks 1, 2, 3, 6, 9, 12), of
    scores 12, 11, 10, 7, 4, 1, in that order. *)
Theorem prune_scenario s :
  Process_score <$> process_list s ≡ₚ [1; 2; 3; 4; 5; 6; 7; 8; 9; 10; 11; 12] →
  first_branch_taken 3 5 s = true ∧
  keep_head 3 5 12 = 2 ∧
  (Sys_prune 3 5 s).2 = Py.Returned ∧
  Forall2 (λ i p, Py.sort_desc Process_score (process_list s) !! i = Some p)
    [0; 1; 2; 5; 8; 11]%nat (process_list (Sys_prune 3 5 s).1) ∧
  Process_score <$> process_list (Sys_prune 3 5 s).1 = [12; 11; 10; 7; 4; 1].
Proof.
  intros Hperm.
  assert (length (process_list s) = 12%nat) as Hlen.
  { by rewrite <-(length_fmap Process_score), Hperm. }
  assert (Process_score <$> Py.sort_desc Process_score (process_list s)
          = [12; 11; 10; 9; 8; 7; 6; 5; 4; 3; 2; 1]) as Hsorted.
  { apply sort_desc_scores.
    - rewrite Hperm. by rewrite <-(reverse_Permutation [12; 11; 10; 9; 8; 7; 6; 5; 4; 3; 2; 1]).
    - repeat (constructor; [|repeat constructor; unfold flip; lia]). constructor. }
  assert (5 < Z.of_nat (length (process_list s))) as Hgt by lia.
  assert (2 ≤ 3) as H23 by lia. assert (1 ≤ 5) as H15 by lia.
  pose proof (Sys_prune_picks 3 5 s H23 H15 Hgt) as Hpick.
  rewrite Hlen in Hpick.
  change (kept_positions 3 5 (Z.of_nat 12)) with [0; 1; 2; 5; 8; 11]%nat in Hpick.
  split_and!.
  - unfold first_branch_taken. by rewrite Hlen.
  - done.
  - by rewrite Sys_prune_in_range.
  - done.
  - revert Hpick Hsorted. generalize (process_list (Sys_prune 3 5 s).1).
    destruct (Py.sort_desc Process_score (process_list s))
      as [|p0 [|p1 [|p2 [|p3 [|p4 [|p5 [|p6 [|p7 [|p8 [|p9 [|p10 [|p11 [|??]]]]]]]]]]]]];
      try done.
    intros l Hpick Hsorted. simpl in Hsorted.
    repeat (apply Forall2_cons_inv_l in Hpick as (? & ? & ? & Hpick & ->)).
    apply Forall2_nil_inv_l in Hpick as ->.
    simpl in *. simplify_eq. congruence.
Qed.
End Scenario.

(** ** [Process.execute] *)

Section ExecuteFacts.
Context {M Hint Env : Type} `{!Model M}.
Implicit Types (s : Sys M Hint Env) (p self : Process M Hint) (env : Env).

Lemma list_alter_insert_same {A} (f : A → A) (l : list A) i x :
  alter f i (<[i:=x]> l) = <[i:=f x]> l.
Proof. by rewrite !list_insert_alter, list_alter_alter_eq. Qed.

Lemma pop_spec {A} (l : list A) :
  Py.pop l = (λ x, (x, take (length l - 1) l)) <$> last l.
Proof. unfold Py.pop. by destruct (last l). Qed.

Lemma foldl_add_model s (f : Hint → Process M Hint) hs :
  foldl (λ s h, add_model s (f h)) s hs
  = set_process_list (process_list s ++ (f <$> hs)) s.
Proof.
  revert s. induction hs as [|h hs IH]; intros s; simpl.
  - rewrite app_nil_r. by destruct s.
  - rewrite IH. unfold add_model, set_process_list. simpl.
    by rewrite <-app_assoc.
Qed.

(** One pass through the loop body of [Process.execute]. *)
Lemma execute_line_unfold idx env s line (instr : CodeLine M Hint Env) self m' hs :
  process_list s !! idx = Some self →
  instr (model self) (hint self) env = (m', hs) →
  execute_line idx env s (line, instr)
  = let self' := {| resume_ptr := resume_ptr self; hint := last hs; model := m' |} in
    set_process_list
      (<[idx := self']> (process_list s)
         ++ (clone self' (line + 1) <$> take (length hs - 1) hs)) s.
Proof.
  intros Hself Hinstr. unfold execute_line. rewrite Hself. simpl. rewrite Hinstr.
  rewrite pop_spec. destruct (last hs) as [h|] eqn:Hlast; simpl.
  - by rewrite foldl_add_model.
  - apply last_None in Hlast as ->. by rewrite foldl_add_model.
Qed.

Lemma execute_line_None idx env s li :
  process_list s !! idx = None → execute_line idx env s li = s.
Proof. intros Hnone. unfold execute_line. by rewrite Hnone. Qed.

Lemma instructions_from_lines s index :
  (instructions_from s index).*1 = seq index (length (code s) - index).
Proof.
  unfold instructions_from. rewrite fst_zip by (by rewrite length_seq).
  by rewrite length_drop.
Qed.

Lemma instructions_from_range s index :
  Forall (λ li : nat * CodeLine M Hint Env, index ≤ li.1 < length (code s))
    (instructions_from s index).
Proof.
  apply Forall_fmap with (f := fst) (P := λ n, index ≤ n < length (code s)).
  rewrite instructions_from_lines. apply Forall_seq. intros j Hj. lia.
Qed.

(** What the loop of [Process.execute] does to the population: the
    process at [idx] is updated in place and clones are appended, each with
    a resume pointer beyond the line that forked it. *)
Lemma foldl_execute_line idx env r L its : ∀ s self,
  process_list s !! idx = Some self →
  Forall (λ li : nat * CodeLine M Hint Env, r ≤ li.1 < L) its →
  ∃ self' children,
    process_list (foldl (execute_line idx env) s its)
    = <[idx := self']> (process_list s) ++ children ∧
    resume_ptr self' = resume_ptr self ∧
    Forall (λ c, r < resume_ptr c ≤ L) children ∧
    code (foldl (execute_line idx env) s its) = code s.
Proof.
  induction its as [|[line instr] its IH]; intros s self Hself Hits; simpl.
  - exists self, []. rewrite app_nil_r, list_insert_id by done. by repeat constructor.
  - apply Forall_cons in Hits as [Hline Hits]. simpl in Hline.
    destruct (instr (model self) (hint self) env) as [m' hs] eqn:Hinstr.
    rewrite (execute_line_unfold _ _ _ _ _ _ _ _ Hself Hinstr). simpl.
    set (self1 := {| resume_ptr := resume_ptr self; hint := last hs; model := m' |}).
    set (ch1 := clone self1 (line + 1) <$> take (length hs - 1) hs).
    assert (idx < length (process_list s)) as Hidx by (by eapply lookup_lt_Some).
    edestruct (IH (set_process_list (<[idx:=self1]> (process_list s) ++ ch1) s) self1)
      as (self' & ch2 & Hlist & Hres & Hch & Hcode); [|done|].
    { simpl. rewrite lookup_app_l by (by rewrite length_insert).
      by rewrite list_lookup_insert_eq. }
    exists self', (ch1 ++ ch2). split_and!.
    + rewrite Hlist. simpl.
      rewrite insert_app_l by (by rewrite length_insert).
      by rewrite list_insert_insert_eq, <-app_assoc.
    + done.
    + apply Forall_app. split; [|done].
      apply Forall_fmap, Forall_forall. intros h _. simpl. lia.
    + by rewrite Hcode.
Qed.

Lemma Process_execute_None idx env s :
  process_list s !! idx = None → Process_execute idx env s = s.
Proof. intros Hnone. unfold Process_execute. by rewrite Hnone. Qed.

Lemma Process_execute_spec idx env s self :
  process_list s !! idx = Some self →
  ∃ self' children,
    process_list (Process_execute idx env s)
    = <[idx := self']> (process_list s) ++ children ∧
    resume_ptr self' = 0 ∧
    Forall (λ c, resume_ptr self < resume_ptr c ≤ length (code s)) children ∧
    code (Process_execute idx env s) = code s.
Proof.
  intros Hself. unfold Process_execute. rewrite Hself.
  destruct (foldl_execute_line idx env (resume_ptr self) (length (code s))
    (instructions_from s (resume_ptr self)) s self Hself
    (instructions_from_range _ _)) as (self' & children & Hlist & Hres & Hch & Hcode).
  assert (idx < length (process_list s)) as Hidx by (by eapply lookup_lt_Some).
  exists {| resume_ptr := 0; hint := hint self'; model := model self' |}, children.
  split_and!; [|done..].
  unfold reset_resume_ptr. simpl. rewrite Hlist.
  rewrite alter_app_l by (by rewrite length_insert).
  by rewrite list_alter_insert_same.
Qed.

Lemma Process_execute_code idx env s :
  code (Process_execute idx env s) = code s.
Proof.
  destruct (process_list s !! idx) as [self|] eqn:Hself.
  - by destruct (Process_execute_spec idx env s self Hself) as (?&?&?&?&?&?).
  - by rewrite Process_execute_None.
Qed.

Lemma Process_execute_length idx env s :
  length (process_list s) ≤ length (process_list (Process_execute idx env s)).
Proof.
  destruct (process_list s !! idx) as [self|] eqn:Hself.
  - destruct (Process_execute_spec idx env s self Hself) as (?&?&->&?&?&?).
    rewrite length_app, length_insert. lia.
  - by rewrite Process_execute_None.
Qed.

(** Frame: [Process.execute] touches no other process of the population. *)
Lemma Process_execute_frame idx env s j :
  j ≠ idx → j < length (process_list s) →
  process_list (Process_execute idx env s) !! j = process_list s !! j.
Proof.
  intros Hne Hj. destruct (process_list s !! idx) as [self|] eqn:Hself.
  - destruct (Process_execute_spec idx env s self Hself) as (?&?&->&?&?&?).
    rewrite lookup_app_l by (by rewrite length_insert).
    by rewrite list_lookup_insert_ne.
  - by rewrite Process_execute_None.
Qed.

Lemma Process_execute_reset idx env s self :
  process_list s !! idx = Some self →
  ∃ self', process_list (Process_execute idx env s) !! idx = Some self' ∧
           resume_ptr self' = 0.
Proof.
  intros Hself.
  destruct (Process_execute_spec idx env s self Hself) as (self'&?&->&?&?&?).
  assert (idx < length (process_list s)) as Hidx by (by eapply lookup_lt_Some).
  exists self'. rewrite lookup_app_l by (by rewrite length_insert).
  by rewrite list_lookup_insert_eq.
Qed.

End ExecuteFacts.

(** ** [Sys.execute]: one round *)

Section RoundFacts.
Context {M Hint Env : Type} `{!Model M}.
Implicit Types (s : Sys M Hint Env) (p self : Process M Hint) (env : Env).

Lemma Sys_execute_from_fuel_mono fuel fuel' i env s r :
  Sys_execute_from fuel i env s = Some r → fuel ≤ fuel' →
  Sys_execute_from fuel' i env s = Some r.
Proof.
  revert fuel' i s r. induction fuel as [|fuel IH]; intros fuel' i s r Hrun Hle;
    [done|].
  destruct fuel' as [|fuel']; [lia|]. simpl in *.
  destruct (process_list s !! i); [|done].
  destruct (Sys_execute_from fuel (S i) env (Process_execute i env s))
    as [[s' calls]|] eqn:Hrec; [|done].
  by rewrite (IH fuel' _ _ _ Hrec) by lia.
Qed.

Lemma Sys_execute_from_det fuel fuel' i env s r r' :
  Sys_execute_from fuel i env s = Some r →
  Sys_execute_from fuel' i env s = Some r' → r = r'.
Proof.
  intros Hr Hr'.
  apply (Sys_execute_from_fuel_mono _ (fuel `max` fuel')) in Hr; [|lia].
  apply (Sys_execute_from_fuel_mono _ (fuel `max` fuel')) in Hr'; [|lia].
  congruence.
Qed.

(** Termination.  Every pending process (position [i] onwards) has at most
    [m] lines left, and those beyond the first [n] pending ones have fewer:
    a call of [Process.execute] only appends processes with fewer lines left
    than its own. *)
Lemma Sys_execute_from_terminates_aux env m : ∀ n s i,
  (∀ j p, process_list s !! (i + j) = Some p →
     length (code s) - resume_ptr p ≤ m ∧
     (n ≤ j → length (code s) - resume_ptr p < m)) →
  ∃ fuel r, Sys_execute_from fuel i env s = Some r.
Proof.
  induction m as [m IHm] using lt_wf_ind.
  induction n as [|n IHn]; intros s i Hpending.
  - destruct m as [|m].
    + exists 1. simpl. destruct (process_list s !! i) as [p|] eqn:Hp; [|eauto].
      destruct (Hpending 0 p) as [_ Hlt]; [by rewrite Nat.add_0_r|]. lia.
    + apply (IHm m (Nat.lt_succ_diag_r m) (length (process_list s) - i) s i).
      intros j p Hp. destruct (Hpending j p Hp) as [_ Hlt]. split; [lia|].
      intros Hj. apply lookup_lt_Some in Hp. lia.
  - destruct (process_list s !! i) as [self|] eqn:Hself.
    2:{ exists 1. simpl. rewrite Hself. eauto. }
    destruct (Process_execute_spec i env s self Hself)
      as (self' & children & Hlist & _ & Hch & Hcode).
    assert (i < length (process_list s)) as Hi by (by eapply lookup_lt_Some).
    destruct (IHn (Process_execute i env s) (S i)) as (fuel & r & Hrun).
    { intros j p. rewrite Hlist, Hcode.
      destruct (decide (S i + j < length (process_list s))) as [Hin|Hout].
      - rewrite lookup_app_l by (by rewrite length_insert).
        rewrite list_lookup_insert_ne by lia. intros Hp.
        replace (S i + j) with (i + S j) in Hp by lia.
        destruct (Hpending (S j) p Hp) as [Hle Hlt]. split; [done|].
        intros Hj. apply Hlt. lia.
      - rewrite lookup_app_r by (rewrite length_insert; lia).
        intros Hp. apply list_elem_of_lookup_2 in Hp.
        rewrite Forall_forall in Hch. apply Hch in Hp.
        destruct (Hpending 0 self) as [Hle _]; [by rewrite Nat.add_0_r|]. lia. }
    exists (S fuel). simpl. rewrite Hself, Hrun. destruct r. eauto.
Qed.

Lemma Sys_execute_from_terminates env s i :
  ∃ fuel r, Sys_execute_from fuel i env s = Some r.
Proof.
  apply (Sys_execute_from_terminates_aux env (S (length (code s)))
    (length (process_list s) - i)).
  intros j p Hp. split; [lia|]. intros Hj. apply lookup_lt_Some in Hp. lia.
Qed.

(** The loop calls [Process.execute] on the positions from [i] up to the
    final length, each once and in order. *)
Lemma Sys_execute_from_calls fuel : ∀ i env s s' calls,
  Sys_execute_from fuel i env s = Some (s', calls) →
  calls = seq i (length (process_list s') - i) ∧
  length (process_list s) ≤ length (process_list s') ∧
  code s' = code s ∧
  s' = foldl (λ s j, Process_execute j env s) s calls.
Proof.
  induction fuel as [|fuel IH]; intros i env s s' calls Hrun; [done|].
  simpl in Hrun. destruct (process_list s !! i) as [self|] eqn:Hself.
  - destruct (Sys_execute_from fuel (S i) env (Process_execute i env s))
      as [[s1 calls1]|] eqn:Hrec; [|done].
    simplify_eq. destruct (IH _ _ _ _ _ Hrec) as (Hcalls & Hlen & Hcode & Hfold).
    pose proof (Process_execute_length i env s).
    apply lookup_lt_Some in Hself.
    split_and!.
    + rewrite Hcalls.
      replace (length (process_list s') - i) with (S (length (process_list s') - S i))
        by lia. done.
    + lia.
    + by rewrite Hcode, Process_execute_code.
    + done.
  - simplify_eq. apply lookup_ge_None in Hself.
    replace (length (process_list s') - i) with 0 by lia. done.
Qed.

(** Positions before [i] are left alone, and every position from [i] on
    ends with its resume pointer reset. *)
Lemma Sys_execute_from_reset fuel : ∀ i env s s' calls,
  Sys_execute_from fuel i env s = Some (s', calls) →
  (∀ j, j < i → j < length (process_list s) →
        process_list s' !! j = process_list s !! j) ∧
  (∀ j p, i ≤ j → process_list s' !! j = Some p → resume_ptr p = 0).
Proof.
  induction fuel as [|fuel IH]; intros i env s s' calls Hrun; [done|].
  simpl in Hrun. destruct (process_list s !! i) as [self|] eqn:Hself.
  - destruct (Sys_execute_from fuel (S i) env (Process_execute i env s))
      as [[s1 calls1]|] eqn:Hrec; [|done].
    simplify_eq. destruct (IH _ _ _ _ _ Hrec) as [Hframe Hreset].
    pose proof (Process_execute_length i env s) as Hlen.
    assert (i < length (process_list s)) as Hi by (by eapply lookup_lt_Some).
    split.
    + intros j Hj Hjlen. rewrite Hframe by lia.
      apply Process_execute_frame; [lia|done].
    + intros j p Hj Hp. destruct (decide (j = i)) as [->|Hne].
      * rewrite Hframe in Hp by lia.
        destruct (Process_execute_reset i env s self Hself) as (self' & Hs' & Hres).
        by simplify_eq.
      * apply (Hreset j p); [lia|done].
  - simplify_eq. split; [done|]. intros j p Hj Hp.
    apply lookup_ge_None in Hself. apply lookup_lt_Some in Hp. lia.
Qed.

End RoundFacts.

(** ** Forks and rounds *)

Section RoundTheorems.
Context {M Hint Env : Type} `{!Model M}.
Implicit Types (s : Sys M Hint Env) (p self : Process M Hint) (env : Env).

Lemma execute_line_frame idx env s li j :
  j ≠ idx → j < length (process_list s) →
  process_list (execute_line idx env s li) !! j = process_list s !! j ∧
  length (process_list s) ≤ length (process_list (execute_line idx env s li)).
Proof.
  intros Hne Hj. destruct li as [line instr].
  destruct (process_list s !! idx) as [self|] eqn:Hself.
  - destruct (instr (model self) (hint self) env) as [m' hs] eqn:Hinstr.
    rewrite (execute_line_unfold _ _ _ _ _ _ _ _ Hself Hinstr). simpl.
    rewrite lookup_app_l by (by rewrite length_insert).
    rewrite list_lookup_insert_ne by done.
    rewrite length_app, length_insert. split; [done|lia].
  - by rewrite execute_line_None.
Qed.

Lemma foldl_execute_line_frame idx env its : ∀ s j,
  j ≠ idx → j < length (process_list s) →
  process_list (foldl (execute_line idx env) s its) !! j = process_list s !! j.
Proof.
  induction its as [|li its IH]; intros s j Hne Hj; simpl; [done|].
  destruct (execute_line_frame idx env s li j Hne Hj) as [Hframe Hlen].
  rewrite IH by (done || lia). done.
Qed.

(** C1.  One instruction call of a process, at program index [line],
    returning the hints [hs]: the process keeps its place with the model
    the instruction left and the last hint as its pending hint (none when
    [hs] is empty); for each other hint, in order, a new process is appended
    to the population at once, holding a deep copy of that model, resume
    pointer [line + 1] and the hint; the population grows by
    [max (k - 1) 0]; the next instruction of the process runs on that
    population and leaves the new processes as they are. *)
Theorem fork_on_hints idx env s line (instr : CodeLine M Hint Env) self m' hs rest :
  process_list s !! idx = Some self →
  instr (model self) (hint self) env = (m', hs) →
  let s' := execute_line idx env s (line, instr) in
  let p := length (process_list s) in
  let k := length hs in
  process_list s' !! idx
    = Some {| resume_ptr := resume_ptr self; hint := last hs; model := m' |} ∧
  (k = 0 → last hs = None ∧ length (process_list s') = p) ∧
  (1 ≤ k → last hs = hs !! (k - 1)) ∧
  (Z.of_nat (length (process_list s')) = Z.of_nat p + Z.max (Z.of_nat k - 1) 0)%Z ∧
  (∀ j h, j < k - 1 → hs !! j = Some h →
     process_list s' !! (p + j)
     = Some {| resume_ptr := line + 1; hint := Some h; model := deepcopy m' |}) ∧
  (∀ j, j ≠ idx → j < p → process_list s' !! j = process_list s !! j) ∧
  foldl (execute_line idx env) s ((line, instr) :: rest)
    = foldl (execute_line idx env) s' rest ∧
  (∀ j h, j < k - 1 → hs !! j = Some h →
     process_list (foldl (execute_line idx env) s' rest) !! (p + j)
     = Some {| resume_ptr := line + 1; hint := Some h; model := deepcopy m' |}).
Proof.
  intros Hself Hinstr s' p k.
  assert (idx < p) as Hidx by (by eapply lookup_lt_Some).
  pose proof (execute_line_unfold idx env s line instr self m' hs Hself Hinstr) as Hs'.
  fold s' in Hs'. simpl in Hs'.
  set (self' := {| resume_ptr := resume_ptr self; hint := last hs; model := m' |}) in *.
  assert (length (process_list s') = p + (k - 1)) as Hlen.
  { rewrite Hs'. simpl. rewrite length_app, length_insert, length_fmap, length_take.
    unfold p, k. lia. }
  assert (∀ j h, j < k - 1 → hs !! j = Some h →
     process_list s' !! (p + j)
     = Some {| resume_ptr := line + 1; hint := Some h; model := deepcopy m' |})
    as Hnew.
  { intros j h Hj Hh. rewrite Hs'. simpl.
    rewrite lookup_app_r by (rewrite length_insert; unfold p; lia).
    rewrite length_insert. replace (p + j - length (process_list s)) with j
      by (unfold p; lia).
    rewrite list_lookup_fmap, lookup_take_lt by (unfold k in Hj; lia).
    by rewrite Hh. }
  split_and!.
  - rewrite Hs'. simpl. rewrite lookup_app_l by (by rewrite length_insert).
    by rewrite list_lookup_insert_eq.
  - intros Hk. destruct hs; [|done]. split; [done|]. rewrite Hlen. unfold k. simpl. lia.
  - intros Hk. rewrite last_lookup. f_equal. unfold k. lia.
  - lia.
  - done.
  - intros j Hne Hj. by apply execute_line_frame.
  - done.
  - intros j h Hj Hh. rewrite foldl_execute_line_frame by lia. by apply Hnew.
Qed.

Lemma foldl_Process_execute_code env js : ∀ s,
  code (foldl (λ s j, Process_execute j env s) s js) = code s.
Proof.
  induction js as [|j js IH]; intros s; simpl; [done|].
  by rewrite IH, Process_execute_code.
Qed.

Lemma Sys_execute_from_visits fuel : ∀ i env s s' calls,
  Sys_execute_from fuel i env s = Some (s', calls) →
  ∀ k, i + k < length (process_list s') →
  is_Some (process_list (foldl (λ s j, Process_execute j env s) s (seq i k)) !! (i + k)).
Proof.
  induction fuel as [|fuel IH]; intros i env s s' calls Hrun k Hk; [done|].
  simpl in Hrun. destruct (process_list s !! i) as [self|] eqn:Hself.
  - destruct (Sys_execute_from fuel (S i) env (Process_execute i env s))
      as [[s1 calls1]|] eqn:Hrec; [|done].
    simplify_eq. destruct k as [|k]; simpl.
    + rewrite Nat.add_0_r. eauto.
    + replace (i + S k) with (S i + k) by lia.
      apply (IH _ _ _ _ _ Hrec). lia.
  - simplify_eq. apply lookup_ge_None in Hself. lia.
Qed.

(** C3.  [Sys.execute] returns, and then every process of the population,
    those forked during the round included, has resume pointer 0. *)
Theorem round_resets_resume_ptr env s :
  ∃ fuel s' calls,
    Sys_execute fuel env s = Some (s', calls) ∧
    Forall (λ p, resume_ptr p = 0) (process_list s') ∧
    (∀ fuel' r, Sys_execute fuel' env s = Some r → r = (s', calls)).
Proof.
  destruct (Sys_execute_from_terminates env s 0) as (fuel & [s' calls] & Hrun).
  exists fuel, s', calls. split_and!; [done| |].
  - destruct (Sys_execute_from_reset _ _ _ _ _ _ Hrun) as [_ Hreset].
    apply Forall_lookup. intros j p Hp. apply (Hreset j p); [lia|done].
  - intros fuel' r Hr. symmetry. by eapply Sys_execute_from_det.
Qed.

(** C2.  [Sys.execute] returns after calling [Process.execute] on every
    position from 0 up to the final length of the population, each once
    and in order, the processes registered during the call included: when
    its turn comes a position holds a process, and the call runs the lines
    from that process's resume pointer to the end of the program. *)
Theorem round_executes_every_position env s :
  ∃ fuel s',
    let n := length (process_list s') in
    let before j := foldl (λ s j, Process_execute j env s) s (seq 0 j) in
    Sys_execute fuel env s = Some (s', seq 0 n) ∧
    length (process_list s) ≤ n ∧
    s' = before n ∧
    (∀ j, j < n →
       ∃ p, process_list (before j) !! j = Some p ∧
            before (S j)
            = reset_resume_ptr j
                (foldl (execute_line j env) (before j)
                   (instructions_from (before j) (resume_ptr p))) ∧
            (instructions_from (before j) (resume_ptr p)).*1
            = seq (resume_ptr p) (length (code s) - resume_ptr p)) ∧
    (∀ fuel' r, Sys_execute fuel' env s = Some r → r = (s', seq 0 n)).
Proof.
  destruct (Sys_execute_from_terminates env s 0) as (fuel & [s' calls] & Hrun).
  destruct (Sys_execute_from_calls _ _ _ _ _ _ Hrun) as (Hcalls & Hlen & Hcode & Hfold).
  rewrite Nat.sub_0_r in Hcalls. subst calls.
  exists fuel, s'. cbv zeta. split_and!; [done..| |].
  - intros j Hj.
    destruct (Sys_execute_from_visits _ _ _ _ _ _ Hrun j) as [p Hp]; [simpl; lia|].
    rewrite Nat.add_0_l in Hp. exists p. split_and!; [done| |].
    + rewrite seq_S, foldl_app. simpl. unfold Process_execute at 1. by rewrite Hp.
    + by rewrite instructions_from_lines, foldl_Process_execute_code.
  - intros fuel' r Hr. symmetry. by eapply Sys_execute_from_det.
Qed.

End RoundTheorems.

(** ** Two runs side by side *)

Lemma result_rel_bind {A B} (P : A → A → Prop) (Q : B → B → Prop)
    (r1 r2 : Py.result A) (f1 f2 : A → Py.result B) :
  result_rel P r1 r2 → (∀ a b, P a b → result_rel Q (f1 a) (f2 b)) →
  result_rel Q (r1 ≫= f1) (r2 ≫= f2).
Proof. destruct r1, r2; simpl; try done. intros HP Hf. by apply Hf. Qed.

Lemma result_rel_refl {A} (r : Py.result A) : result_rel eq r r.
Proof. by destruct r. Qed.

Section SortSim.
Context {A : Type} (P : A → A → Prop) (key1 key2 : A → Z).
Hypothesis Hkey : ∀ a b, P a b → key1 a = key2 b.

Lemma insert_desc_sim x1 x2 l1 l2 :
  P x1 x2 → Forall2 P l1 l2 →
  Forall2 P (Py.insert_desc key1 x1 l1) (Py.insert_desc key2 x2 l2).
Proof.
  intros Hx Hl. induction Hl as [|y1 y2 l1 l2 Hy Hl IH]; simpl.
  - by repeat constructor.
  - rewrite (Hkey _ _ Hx), (Hkey _ _ Hy).
    destruct (key2 y2 <=? key2 x2)%Z; by repeat constructor.
Qed.

Lemma sort_desc_sim l1 l2 :
  Forall2 P l1 l2 → Forall2 P (Py.sort_desc key1 l1) (Py.sort_desc key2 l2).
Proof.
  induction 1; simpl; [constructor|]. by apply insert_desc_sim.
Qed.

Lemma omap_lookup_sim l1 l2 (ps : list nat) :
  Forall2 P l1 l2 →
  Forall2 P (omap (λ i, l1 !! i) ps) (omap (λ i, l2 !! i) ps).
Proof.
  intros Hl. induction ps as [|i ps IH]; simpl; [constructor|].
  destruct (l1 !! i) as [x1|] eqn:H1.
  - destruct (Forall2_lookup_l _ _ _ _ _ Hl H1) as (x2 & -> & Hx). simpl.
    by constructor.
  - assert (l2 !! i = None) as ->; [|done].
    apply lookup_ge_None. apply lookup_ge_None in H1.
    by rewrite <-(Forall2_length _ _ _ Hl).
Qed.

Lemma slice_sim l1 l2 start stop step :
  Forall2 P l1 l2 →
  result_rel (Forall2 P) (Py.slice l1 start stop step) (Py.slice l2 start stop step).
Proof.
  intros Hl. unfold Py.slice. destruct (step =? 0)%Z; [done|].
  rewrite (Forall2_length _ _ _ Hl). by apply omap_lookup_sim.
Qed.
End SortSim.

Section Determinism.
Context {M Hint Env : Type} (H1 H2 : Model M) (R : relation M).
Implicit Types (s : Sys M Hint Env) (p : Process M Hint) (env : Env).

Hypothesis Hscore : ∀ m1 m2, R m1 m2 → @score M H1 m1 = @score M H2 m2.
Hypothesis Hcopy : ∀ m1 m2, R m1 m2 → R (@deepcopy M H1 m1) (@deepcopy M H2 m2).

Lemma process_sim_score p1 p2 :
  process_sim R p1 p2 → Process_score (Model0:=H1) p1 = Process_score (Model0:=H2) p2.
Proof. intros (_ & _ & Hm). by apply Hscore. Qed.

Lemma execute_line_sim idx env s1 s2 line (instr : CodeLine M Hint Env) :
  instruction_respects R instr → sys_sim R s1 s2 →
  sys_sim R (execute_line (Model0:=H1) idx env s1 (line, instr))
            (execute_line (Model0:=H2) idx env s2 (line, instr)).
Proof.
  intros Hinstr [Hcode Hlist].
  destruct (process_list s1 !! idx) as [self1|] eqn:Hself1.
  - destruct (Forall2_lookup_l _ _ _ _ _ Hlist Hself1)
      as (self2 & Hself2 & Hres & Hhint & Hmodel).
    destruct (instr (model self1) (hint self1) env) as [m1 hs1] eqn:E1.
    destruct (instr (model self2) (hint self2) env) as [m2 hs2] eqn:E2.
    destruct (Hinstr _ _ (hint self1) env Hmodel) as [Hm Hhs].
    pose proof E2 as E2'. rewrite <-Hhint in E2'.
    rewrite E1, E2' in Hm, Hhs. simpl in Hm, Hhs. subst hs2.
    rewrite (execute_line_unfold _ _ _ _ _ _ _ _ Hself1 E1).
    rewrite (execute_line_unfold _ _ _ _ _ _ _ _ Hself2 E2).
    split; [done|]. simpl. apply Forall2_app.
    + apply Forall2_insert; [done|]. by split_and!.
    + apply Forall2_fmap, Forall_Forall2_diag, Forall_forall.
      intros h _. split_and!; [done..|]. simpl. by apply Hcopy.
  - assert (process_list s2 !! idx = None) as Hself2.
    { apply lookup_ge_None. apply lookup_ge_None in Hself1.
      by rewrite <-(Forall2_length _ _ _ Hlist). }
    rewrite !execute_line_None by done. by split.
Qed.

Lemma foldl_execute_line_sim idx env its : ∀ s1 s2,
  Forall (λ li : nat * CodeLine M Hint Env, instruction_respects R li.2) its →
  sys_sim R s1 s2 →
  sys_sim R (foldl (execute_line (Model0:=H1) idx env) s1 its)
            (foldl (execute_line (Model0:=H2) idx env) s2 its).
Proof.
  induction its as [|[line instr] its IH]; intros s1 s2 Hits Hsim; simpl; [done|].
  apply Forall_cons in Hits as [Hinstr Hits].
  apply IH; [done|]. by apply execute_line_sim.
Qed.

Lemma instructions_from_respects s index :
  Forall (instruction_respects R) (code s) →
  Forall (λ li : nat * CodeLine M Hint Env, instruction_respects R li.2)
    (instructions_from s index).
Proof.
  intros Hcode. apply Forall_fmap with (f := snd) (P := instruction_respects R).
  unfold instructions_from. rewrite snd_zip by (rewrite length_seq; lia).
  by apply Forall_drop.
Qed.

Lemma Process_execute_sim idx env s1 s2 :
  Forall (instruction_respects R) (code s1) → sys_sim R s1 s2 →
  sys_sim R (Process_execute (Model0:=H1) idx env s1)
            (Process_execute (Model0:=H2) idx env s2).
Proof.
  intros Hcode Hsim. pose proof Hsim as [Hcode12 Hlist]. unfold Process_execute.
  destruct (process_list s1 !! idx) as [self1|] eqn:Hself1.
  - destruct (Forall2_lookup_l _ _ _ _ _ Hlist Hself1)
      as (self2 & -> & Hres & _ & _).
    assert (instructions_from s2 (resume_ptr self2)
            = instructions_from s1 (resume_ptr self1)) as ->.
    { unfold instructions_from. by rewrite Hcode12, Hres. }
    destruct (foldl_execute_line_sim idx env
      (instructions_from s1 (resume_ptr self1)) s1 s2
      (instructions_from_respects _ _ Hcode) Hsim) as [Hc Hl].
    split; [done|]. simpl. apply Forall2_alter; [done|].
    intros p1 p2 _ _ (_ & Hh & Hm). by split_and!.
  - assert (process_list s2 !! idx = None) as ->; [|done].
    apply lookup_ge_None. apply lookup_ge_None in Hself1.
    by rewrite <-(Forall2_length _ _ _ Hlist).
Qed.

Lemma Sys_execute_from_sim fuel : ∀ i env s1 s2,
  Forall (instruction_respects R) (code s1) → sys_sim R s1 s2 →
  option_Forall2 (λ r1 r2, sys_sim R r1.1 r2.1 ∧ r1.2 = r2.2)
    (Sys_execute_from (Model0:=H1) fuel i env s1)
    (Sys_execute_from (Model0:=H2) fuel i env s2).
Proof.
  induction fuel as [|fuel IH]; intros i env s1 s2 Hcode Hsim; simpl; [constructor|].
  pose proof Hsim as [_ Hlist].
  destruct (process_list s1 !! i) as [self1|] eqn:Hself1.
  - destruct (Forall2_lookup_l _ _ _ _ _ Hlist Hself1) as (self2 & -> & _).
    pose proof (IH (S i) env _ _
      (eq_ind_r (Forall _) Hcode (Process_execute_code (Model0:=H1) i env s1))
      (Process_execute_sim i env s1 s2 Hcode Hsim)) as Hrec.
    destruct Hrec as [[s1' c1] [s2' c2] [Hs Hc]|]; simpl in *; [|constructor].
    subst c2. by constructor.
  - assert (process_list s2 !! i = None) as ->.
    { apply lookup_ge_None. apply lookup_ge_None in Hself1.
      by rewrite <-(Forall2_length _ _ _ Hlist). }
    by constructor.
Qed.

Lemma prune_kept_sim stride final_count (x1 x2 : list (Process M Hint)) :
  Forall2 (process_sim R) x1 x2 →
  result_rel (Forall2 (process_sim R))
    (prune_kept stride final_count x1) (prune_kept stride final_count x2).
Proof.
  intros Hx. unfold prune_kept, prune_first, prune_second.
  rewrite <-(Forall2_length _ _ _ Hx).
  destruct (Z.of_nat (length x1) <=? final_count * stride)%Z.
  - eapply result_rel_bind; [apply result_rel_refl|]. intros q ? <-.
    eapply result_rel_bind; [by apply slice_sim|]. intros a1 a2 Ha.
    eapply result_rel_bind; [by apply slice_sim|]. intros b1 b2 Hb.
    by apply Forall2_app.
  - eapply result_rel_bind; [apply result_rel_refl|]. intros q ? <-.
    by apply slice_sim.
Qed.

Lemma Sys_prune_sim stride final_count s1 s2 :
  sys_sim R s1 s2 →
  sys_sim R (Sys_prune (Model0:=H1) stride final_count s1).1
            (Sys_prune (Model0:=H2) stride final_count s2).1 ∧
  (Sys_prune (Model0:=H1) stride final_count s1).2
  = (Sys_prune (Model0:=H2) stride final_count s2).2.
Proof.
  intros [Hcode Hlist]. unfold Sys_prune.
  rewrite <-(Forall2_length _ _ _ Hlist).
  destruct (Z.of_nat (length (process_list s1)) <=? final_count)%Z; [by split|].
  pose proof (sort_desc_sim (process_sim R) _ _ process_sim_score _ _ Hlist) as Hsort.
  pose proof (prune_kept_sim stride final_count _ _ Hsort) as Hkept.
  unfold result_rel in Hkept.
  destruct (prune_kept _ _ (Py.sort_desc (Process_score (Model0:=H1)) _)),
    (prune_kept _ _ (Py.sort_desc (Process_score (Model0:=H2)) _));
    simpl; try done; by subst.
Qed.

End Determinism.

Section RunFacts.
Context {M Hint Env : Type} `{!Model M} `{!Environment Env}.
Implicit Types (s : Sys M Hint Env) (os : OperatingSystem M Hint Env).

Lemma Sys_prune_code stride final_count s :
  code (Sys_prune stride final_count s).1 = code s.
Proof.
  unfold Sys_prune. destruct (_ <=? _)%Z; [done|]. by destruct (prune_kept _ _ _).
Qed.

Lemma OperatingSystem_execute_fuel_mono fuel fuel' os os' :
  OperatingSystem_execute fuel os = Some os' → fuel ≤ fuel' →
  OperatingSystem_execute fuel' os = Some os'.
Proof.
  unfold OperatingSystem_execute, Sys_execute. intros Hrun Hle.
  destruct (Sys_execute_from fuel 0 _ _) as [[s' calls]|] eqn:Hs; [|done].
  by rewrite (Sys_execute_from_fuel_mono _ _ _ _ _ _ Hs Hle).
Qed.

Lemma OperatingSystem_execute_terminates os :
  ∃ fuel os', OperatingSystem_execute fuel os = Some os'.
Proof.
  destruct (Sys_execute_from_terminates (os_env os) (os_sys os) 0)
    as (fuel & [s' calls] & Hrun).
  exists fuel. unfold OperatingSystem_execute, Sys_execute. rewrite Hrun. eauto.
Qed.

(** The driving loop never runs out of fuel, given enough of it. *)
Lemma run_terminates ops : ∀ os,
  ∃ fuel0, ∀ fuel, fuel0 ≤ fuel → is_Some (run fuel ops os).
Proof.
  induction ops as [|[|stride final_count] ops IH]; intros os.
  - exists 0. intros fuel _. simpl. eauto.
  - destruct (OperatingSystem_execute_terminates os) as (f1 & os' & Hexec).
    destruct (IH os') as [f2 Hrest].
    exists (f1 `max` f2). intros fuel Hfuel. simpl.
    rewrite (OperatingSystem_execute_fuel_mono _ _ _ _ Hexec) by lia.
    destruct (Hrest fuel) as [t Ht]; [lia|]. rewrite Ht. simpl. eauto.
  - simpl. destruct (OperatingSystem_prune stride final_count os) as [os' [|e]].
    + destruct (IH os') as [f2 Hrest]. exists f2. intros fuel Hfuel.
      destruct (Hrest fuel Hfuel) as [t Ht]. rewrite Ht. simpl. eauto.
    + exists 0. eauto.
Qed.
End RunFacts.

Section RunSim.
Context {M Hint Env : Type} (H1 H2 : Model M) `{!Environment Env} (R : relation M).
Implicit Types (os : OperatingSystem M Hint Env).

Hypothesis Hscore : ∀ m1 m2, R m1 m2 → @score M H1 m1 = @score M H2 m2.
Hypothesis Hcopy : ∀ m1 m2, R m1 m2 → R (@deepcopy M H1 m1) (@deepcopy M H2 m2).

Lemma os_sim_observe os1 os2 :
  os_sim R os1 os2 → observe (Model0:=H1) os1 = observe (Model0:=H2) os2.
Proof.
  intros [[_ Hlist] _]. unfold observe.
  induction Hlist as [|p1 p2 l1 l2 Hp Hl IH]; [done|].
  rewrite !fmap_cons, IH. f_equal. f_equal; [by apply (process_sim_score H1 H2 R)|by destruct Hp].
Qed.

Lemma OperatingSystem_execute_sim fuel os1 os2 :
  Forall (instruction_respects R) (code (os_sys os1)) → os_sim R os1 os2 →
  option_Forall2
    (λ os1' os2', os_sim R os1' os2' ∧ code (os_sys os1') = code (os_sys os1))
    (OperatingSystem_execute (Model0:=H1) fuel os1)
    (OperatingSystem_execute (Model0:=H2) fuel os2).
Proof.
  intros Hcode [Hsys Henv]. unfold OperatingSystem_execute, Sys_execute.
  rewrite <-Henv.
  pose proof (Sys_execute_from_sim H1 H2 R Hcopy fuel 0 (os_env os1) _ _ Hcode Hsys)
    as Hrun.
  destruct (Sys_execute_from (Model0:=H1) fuel 0 (os_env os1) (os_sys os1))
    as [[s1 c1]|] eqn:Hrun1;
  inversion Hrun as [? [s2 c2] [Hs _]|]; simplify_eq; constructor.
  simpl in *. split; [by split|].
  by destruct (Sys_execute_from_calls _ _ _ _ _ _ Hrun1) as (_ & _ & ? & _).
Qed.

Lemma OperatingSystem_prune_sim stride final_count os1 os2 :
  os_sim R os1 os2 →
  os_sim R (OperatingSystem_prune (Model0:=H1) stride final_count os1).1
           (OperatingSystem_prune (Model0:=H2) stride final_count os2).1 ∧
  (OperatingSystem_prune (Model0:=H1) stride final_count os1).2
  = (OperatingSystem_prune (Model0:=H2) stride final_count os2).2 ∧
  code (os_sys (OperatingSystem_prune (Model0:=H1) stride final_count os1).1)
  = code (os_sys os1).
Proof.
  intros [Hsys Henv]. unfold OperatingSystem_prune.
  destruct (Sys_prune_sim H1 H2 R Hscore stride final_count _ _ Hsys) as [Hs Ho].
  pose proof (Sys_prune_code (Model0:=H1) stride final_count (os_sys os1)) as Hc.
  destruct (Sys_prune (Model0:=H1) stride final_count (os_sys os1)),
    (Sys_prune (Model0:=H2) stride final_count (os_sys os2)). simpl in *.
  by split_and!.
Qed.

Lemma run_sim fuel ops : ∀ os1 os2,
  Forall (instruction_respects R) (code (os_sys os1)) → os_sim R os1 os2 →
  option_Forall2 (Forall2 (os_sim R))
    (run (Model0:=H1) fuel ops os1) (run (Model0:=H2) fuel ops os2).
Proof.
  induction ops as [|[|stride final_count] ops IH]; intros os1 os2 Hcode Hsim; simpl.
  - by repeat constructor.
  - destruct (OperatingSystem_execute_sim fuel os1 os2 Hcode Hsim)
      as [os1' os2' [Hsim' Hcode']|]; [|constructor].
    rewrite <-Hcode' in Hcode.
    destruct (IH os1' os2' Hcode Hsim') as [t1 t2 Ht|]; simpl; constructor.
    by constructor.
  - destruct (OperatingSystem_prune_sim stride final_count os1 os2 Hsim)
      as (Hsim' & Ho & Hcode').
    destruct (OperatingSystem_prune (Model0:=H1) stride final_count os1) as [os1' o1],
      (OperatingSystem_prune (Model0:=H2) stride final_count os2) as [os2' o2].
    simpl in *. subst o2. rewrite <-Hcode' in Hcode. destruct o1.
    + destruct (IH os1' os2' Hcode Hsim') as [t1 t2 Ht|]; simpl; constructor.
      by constructor.
    + constructor. constructor; [done|constructor].
Qed.

End RunSim.

Section DeterminismTheorem.
Context {M Hint Env : Type} `{!Environment Env}.

(** C9.  Two runs from the same initial model, program and environment,
    making the same calls of [execute] and [prune]: when scores, deep copies
    and instructions are deterministic up to [R] (the two runs may draw
    different identities in [__deepcopy__]), both runs return, and after
    every call the two populations have the same size and, position by
    position, the same score and resume pointer; the environments agree as
    well.  The sort of [prune] is stable: the processes of any one score
    keep their relative order. *)
Theorem runs_agree (H1 H2 : Model M) (R : relation M)
    (initial : M) (c : list (CodeLine M Hint Env)) (env : Env) (ops : list op) :
  R initial initial →
  deterministic_up_to R H1 H2 c →
  (∃ fuel0, ∀ fuel, fuel0 ≤ fuel →
     ∃ t1 t2,
       run (Model0:=H1) fuel ops (OperatingSystem_init initial c env) = Some t1 ∧
       run (Model0:=H2) fuel ops (OperatingSystem_init initial c env) = Some t2 ∧
       observe (Model0:=H1) <$> t1 = observe (Model0:=H2) <$> t2 ∧
       os_env <$> t1 = os_env <$> t2) ∧
  (∀ (l : list (Process M Hint)) (v : Z),
     filter (λ p, Process_score (Model0:=H1) p = v)
       (Py.sort_desc (Process_score (Model0:=H1)) l)
     = filter (λ p, Process_score (Model0:=H1) p = v) l).
Proof.
  intros Hinit (Hscore & Hcopy & Hcode). split; [|intros l v; apply sort_desc_filter].
  set (os0 := OperatingSystem_init initial c env).
  destruct (run_terminates (Model0:=H1) ops os0) as [fuel0 Hterm].
  exists fuel0. intros fuel Hfuel.
  assert (os_sim R os0 os0) as Hsim.
  { split; [|done]. split; [done|]. simpl. constructor; [|constructor]. by split_and!. }
  pose proof (run_sim H1 H2 R Hscore Hcopy fuel ops os0 os0 Hcode Hsim) as Hrun.
  destruct (Hterm fuel Hfuel) as [t1 Ht1]. rewrite Ht1 in Hrun.
  inversion Hrun as [? t2 Ht Heq1 Heq2|]; subst.
  exists t1, t2. split_and!; [done..| |].
  - clear -Ht Hscore. induction Ht as [|a b t1 t2 Hab Ht IH]; [done|].
    by rewrite !fmap_cons, IH, (os_sim_observe H1 H2 R Hscore a b Hab).
  - clear -Ht. induction Ht as [|a b t1 t2 Hab Ht IH]; [done|].
    rewrite !fmap_cons, IH. by destruct Hab as [_ ->].
Qed.
End DeterminismTheorem.

(** ** The round coordinator, and the size [Sys.prune] leaves *)

Section Further.
Context {M Hint Env : Type} `{!Model M} `{!Environment Env}.
Implicit Types (s : Sys M Hint Env) (os : OperatingSystem M Hint Env).

(** [OperatingSystem.execute] returns: it runs one round of the scheduler
    on the environment as it stands, and then updates the environment
    once; the program is left as it was. *)
Theorem coordinator_round os :
  ∃ fuel s' calls,
    Sys_execute fuel (os_env os) (os_sys os) = Some (s', calls) ∧
    OperatingSystem_execute fuel os
    = Some {| os_sys := s'; os_env := update (os_env os) |} ∧
    code s' = code (os_sys os) ∧
    (∀ fuel' os', OperatingSystem_execute fuel' os = Some os' →
       os' = {| os_sys := s'; os_env := update (os_env os) |}).
Proof.
  destruct (Sys_execute_from_terminates (os_env os) (os_sys os) 0)
    as (fuel & [s' calls] & Hrun).
  exists fuel, s', calls. unfold OperatingSystem_execute, Sys_execute.
  rewrite Hrun. split_and!; [done..| |].
  - by destruct (Sys_execute_from_calls _ _ _ _ _ _ Hrun) as (_ & _ & ? & _).
  - intros fuel' os' Hrun'.
    destruct (Sys_execute_from fuel' 0 (os_env os) (os_sys os)) as [[s'' calls'']|]
      eqn:Hrun''; [|done].
    pose proof (Sys_execute_from_det _ _ _ _ _ _ _ Hrun Hrun''). by simplify_eq.
Qed.

Local Open Scope Z_scope.

(** The size [Sys.prune] leaves, for [stride >= 2] and [final_count >= 1] on
    a population larger than [final_count]: at most [final_count] in the
    second branch; in the first branch [final_count] when [stride - 1]
    divides the excess [len - final_count], and [final_count + 1]
    otherwise. *)
Theorem prune_size stride final_count s :
  2 ≤ stride → 1 ≤ final_count →
  final_count < Z.of_nat (length (process_list s)) →
  let len := Z.of_nat (length (process_list s)) in
  let len' := Z.of_nat (length (process_list (Sys_prune stride final_count s).1)) in
  1 ≤ len' ≤ final_count + 1 ∧
  (final_count * stride < len → len' ≤ final_count) ∧
  (len ≤ final_count * stride →
   len' = if decide ((len - final_count) mod (stride - 1) = 0) then final_count
          else final_count + 1).
Proof.
  intros Hs Hf Hgt len len'.
  pose proof (Sys_prune_picks stride final_count s Hs Hf Hgt) as Hpick.
  apply Forall2_length in Hpick.
  pose proof (kept_positions_length _ _ _ Hs Hf Hgt) as Hlen.
  assert (len' = kept_count stride final_count len) as -> by (unfold len, len'; lia).
  split; [|split].
  - by apply kept_count_range.
  - intros Hbranch. by apply kept_count_second.
  - intros Hbranch. by apply kept_count_first.
Qed.

End Further.


(** ** What [Sys.prune] keeps, and how it fails *)

Section PickSublist.
Context {A : Type}.

Lemma picked_sublist_from (l : list A) : ∀ k ps ys,
  StronglySorted lt ps → Forall (λ i, k ≤ i) ps →
  Forall2 (λ i y, l !! (i - k) = Some y) ps ys → sublist ys l.
Proof.
  induction l as [|x l IH]; intros k ps ys Hsorted Hge Hpick.
  - destruct Hpick as [|i y ps ys Hy _]; [constructor|done].
  - destruct Hpick as [|i y ps ys Hy Hpick]; [apply sublist_nil_l|].
    apply StronglySorted_inv in Hsorted as [Hsorted Hlt].
    apply Forall_cons in Hge as [Hi Hge].
    assert (Forall (λ j, S k ≤ j) ps) as Hge'.
    { eapply Forall_impl; [exact Hlt|]. simpl. lia. }
    assert (Forall2 (λ j z, l !! (j - S k) = Some z) ps ys) as Hpick'.
    { clear -Hpick Hge'. induction Hpick as [|j z ps ys Hz Hpick IH']; [constructor|].
      apply Forall_cons in Hge' as [Hj Hge']. constructor; [|by apply IH'].
      replace (j - k) with (S (j - S k)) in Hz by lia. done. }
    destruct (decide (i = k)) as [->|Hne].
    + rewrite Nat.sub_diag in Hy. simpl in Hy. simplify_eq.
      apply sublist_skip. by apply (IH (S k) ps ys).
    + apply sublist_cons. apply (IH (S k) (i :: ps) (y :: ys)).
      * by constructor.
      * constructor; [lia|done].
      * constructor; [|done].
        replace (i - k) with (S (i - S k)) in Hy by lia. done.
Qed.

Lemma picked_sublist (l : list A) ps ys :
  StronglySorted lt ps → Forall2 (λ i y, l !! i = Some y) ps ys → sublist ys l.
Proof.
  intros Hsorted Hpick. apply (picked_sublist_from l 0 ps ys Hsorted).
  - apply Forall_forall. intros. lia.
  - eapply Forall2_impl; [exact Hpick|]. intros i y. by rewrite Nat.sub_0_r.
Qed.
End PickSublist.

Section PruneAnyStride.
Context {M Hint Env : Type} `{!Model M}.
Implicit Types s : Sys M Hint Env.
Local Open Scope Z_scope.

(** With [final_count >= 1] the first branch is only entered with
    [stride >= 2]. *)
Lemma first_branch_stride stride final_count len :
  1 ≤ final_count → final_count < len → len ≤ final_count * stride → 2 ≤ stride.
Proof. intros Hf Hgt Hle. nia. Qed.

Lemma prune_second_picks final_count (x : list (Process M Hint)) :
  1 ≤ final_count →
  prune_second final_count x
  = Py.Ok (omap (λ i, x !! i)
             (every_nth 0 (new_stride final_count (Z.of_nat (length x)))
                (Z.of_nat (length x)))).
Proof.
  intros Hf. unfold prune_second, Py.floordiv, Py.slice.
  destruct (Z.eqb_spec final_count 0); [lia|]. simpl.
  fold (new_stride final_count (Z.of_nat (length x))).
  assert (0 ≤ Z.of_nat (length x) / final_count) by (apply Z.div_pos; lia).
  assert (0 < new_stride final_count (Z.of_nat (length x))) by (unfold new_stride; lia).
  destruct (Z.eqb_spec (new_stride final_count (Z.of_nat (length x))) 0); [lia|].
  by rewrite slice_positions_all by lia.
Qed.

(** What [Sys.prune] keeps of a population larger than [final_count >= 1],
    whatever the stride: positions of the sorted population that increase
    strictly and start with 0. *)
Lemma Sys_prune_valid_picks stride final_count s :
  1 ≤ final_count → final_count < Z.of_nat (length (process_list s)) →
  (Sys_prune stride final_count s).2 = Py.Returned ∧
  ∃ ps, StronglySorted lt ps ∧ ps !! 0%nat = Some 0%nat ∧
        Forall2 (λ i p, Py.sort_desc Process_score (process_list s) !! i = Some p)
          ps (process_list (Sys_prune stride final_count s).1).
Proof.
  intros Hf Hgt.
  destruct (Z.le_gt_cases (Z.of_nat (length (process_list s))) (final_count * stride))
    as [Hle|Hlt].
  - pose proof (first_branch_stride _ _ _ Hf Hgt Hle) as Hs.
    split; [by rewrite Sys_prune_in_range|].
    exists (kept_positions stride final_count (Z.of_nat (length (process_list s)))).
    split_and!.
    + by apply kept_positions_sorted.
    + by apply kept_positions_head.
    + by apply Sys_prune_picks.
  - unfold Sys_prune, prune_kept. rewrite sort_desc_length.
    rewrite (proj2 (Z.leb_gt _ _)) by done. rewrite (proj2 (Z.leb_gt _ _)) by done.
    rewrite prune_second_picks by done. simpl. split; [done|].
    rewrite sort_desc_length.
    set (len := Z.of_nat (length (process_list s))).
    assert (2 ≤ new_stride final_count len).
    { unfold new_stride.
      assert (1 ≤ len / final_count) by (apply Z.div_le_lower_bound; lia). lia. }
    exists (every_nth 0 (new_stride final_count len) len). split_and!.
    + apply every_nth_sorted; lia.
    + rewrite every_nth_head by lia. done.
    + apply omap_lookup_Forall2. rewrite sort_desc_length.
      eapply Forall_impl; [apply every_nth_bounds; lia|]. simpl. unfold len. lia.
Qed.

Lemma Sys_prune_returns stride final_count s :
  1 ≤ final_count → (Sys_prune stride final_count s).2 = Py.Returned.
Proof.
  intros Hf.
  destruct (Z.le_gt_cases (Z.of_nat (length (process_list s))) final_count).
  - by rewrite Sys_prune_noop.
  - by apply Sys_prune_valid_picks.
Qed.

(** [Sys.prune] with [final_count >= 1] never raises, whatever the stride;
    it only drops processes: what is left is a sub-multiset of the
    population (a sub-sequence of its descending order when it was larger
    than [final_count]), non-empty when the population was, and the
    program is untouched. *)
Theorem prune_only_drops stride final_count s :
  1 ≤ final_count →
  (Sys_prune stride final_count s).2 = Py.Returned ∧
  code (Sys_prune stride final_count s).1 = code s ∧
  process_list (Sys_prune stride final_count s).1 ⊆+ process_list s ∧
  (final_count < Z.of_nat (length (process_list s)) →
   sublist (process_list (Sys_prune stride final_count s).1)
     (Py.sort_desc Process_score (process_list s)) ∧
   process_list (Sys_prune stride final_count s).1 !! 0%nat
   = Py.sort_desc Process_score (process_list s) !! 0%nat) ∧
  (process_list s ≠ [] → process_list (Sys_prune stride final_count s).1 ≠ []).
Proof.
  intros Hf. split; [by apply Sys_prune_returns|].
  split; [apply Sys_prune_code|].
  destruct (Z.le_gt_cases (Z.of_nat (length (process_list s))) final_count)
    as [Hle|Hgt].
  { rewrite Sys_prune_noop by done. simpl. split_and!; [done|lia|done]. }
  destruct (Sys_prune_valid_picks stride final_count s Hf Hgt)
    as (_ & ps & Hsorted & Hhead & Hpick).
  pose proof (picked_sublist _ _ _ Hsorted Hpick) as Hsub.
  destruct (Forall2_lookup_l _ _ _ _ _ Hpick Hhead) as (p & Hp & Hp').
  split_and!.
  - rewrite <-(sort_desc_Permutation Process_score (process_list s)).
    by apply sublist_submseteq.
  - intros _. split; [done|]. by rewrite Hp, Hp'.
  - intros _ Hnil. by rewrite Hnil in Hp.
Qed.

(** When [Sys.prune] raises, [final_count <= 0]; the exception is
    [ZeroDivisionError] at [final_count = 0] and [ValueError] below; and
    the population is left as the in-place sort made it: every process is
    still there, in descending score order. *)
Theorem prune_failure stride final_count s e :
  (Sys_prune stride final_count s).2 = Py.Raised e →
  final_count ≤ 0 ∧
  (final_count = 0 → e = Py.ZeroDivisionError) ∧
  (final_count < 0 → e = Py.ValueError) ∧
  process_list (Sys_prune stride final_count s).1
  = Py.sort_desc Process_score (process_list s) ∧
  code (Sys_prune stride final_count s).1 = code s.
Proof.
  intros Hraised.
  assert (final_count ≤ 0) as Hf.
  { apply Z.le_ngt. intros Hpos.
    rewrite Sys_prune_returns in Hraised by lia. done. }
  pose proof (Sys_prune_zero_division stride final_count s) as Hzero.
  split; [done|]. split_and!.
  - intros ->. revert Hraised Hzero. unfold Sys_prune.
    destruct (Z.leb_spec (Z.of_nat (length (process_list s))) 0) as [Hle|Hgt]; [done|].
    intros Hraised Hzero.
    assert (process_list s ≠ []) as Hne by (intros Hnil; rewrite Hnil in Hgt; simpl in Hgt; lia).
    destruct Hzero as [_ Hzero]. rewrite Hzero in Hraised by done. congruence.
  - intros Hneg. destruct e; [|done].
    apply Hzero in Hraised as [-> _]. lia.
  - revert Hraised. unfold Sys_prune.
    destruct (_ <=? _); [done|]. by destruct (prune_kept _ _ _).
  - apply Sys_prune_code.
Qed.

End PruneAnyStride.

(** ** More on [Process.execute] *)

Section InstructionsFrom.
Context {M Hint Env : Type}.
Implicit Types s : Sys M Hint Env.

Lemma lookup_instructions_from s index k :
  instructions_from s index !! k = (λ c, (index + k, c)) <$> code s !! (index + k).
Proof.
  unfold instructions_from. rewrite lookup_zip_with, lookup_drop.
  destruct (code s !! (index + k)) as [c|] eqn:Hc; simpl.
  - apply lookup_lt_Some in Hc as Hlt.
    rewrite (proj2 (lookup_seq index _ k (index + k))); [done|].
    rewrite length_drop. split; [done|lia].
  - by destruct (seq _ _ !! k).
Qed.

End InstructionsFrom.

Section ProcessExtra.
Context {M Hint Env : Type} `{!Model M}.
Implicit Types (s : Sys M Hint Env) (p self : Process M Hint) (env : Env).

(** [Sys.instructions_from]: the [k]-th pair it yields is line [index + k]
    with the instruction of that line; it yields [len(code) - index]
    pairs, none when [index] is at or past the end of the program. *)
Theorem instructions_from_lookup s index k :
  instructions_from s index !! k = (λ c, (index + k, c)) <$> code s !! (index + k) ∧
  length (instructions_from s index) = length (code s) - index.
Proof.
  split; [apply lookup_instructions_from|].
  unfold instructions_from. rewrite length_zip_with, length_seq, length_drop. lia.
Qed.

(** [Process.execute] on a process whose resume pointer is at or past the
    end of the program (a process forked by the last line): no instruction
    is called; the pointer is reset to 0, and the hint, the model and the
    rest of the population stay as they are. *)
Theorem Process_execute_past_end idx env s self :
  process_list s !! idx = Some self →
  length (code s) ≤ resume_ptr self →
  Process_execute idx env s
  = set_process_list
      (<[idx := {| resume_ptr := 0; hint := hint self; model := model self |}]>
         (process_list s)) s.
Proof.
  intros Hself Hpast. unfold Process_execute. rewrite Hself.
  assert (instructions_from s (resume_ptr self) = []) as ->.
  { apply fmap_nil_inv with (f := fst). rewrite instructions_from_lines.
    by replace (length (code s) - resume_ptr self) with 0 by lia. }
  simpl. unfold reset_resume_ptr. f_equal.
  apply lookup_lt_Some in Hself as Hlt.
  apply list_eq. intros j. destruct (decide (j = idx)) as [->|Hne].
  - by rewrite list_lookup_alter_eq, list_lookup_insert_eq, Hself.
  - by rewrite list_lookup_alter_ne, list_lookup_insert_ne.
Qed.

(** The effect of [Process.execute] on the population: the process stays
    at its position, its resume pointer reset to 0; the other processes are
    untouched; the new processes are appended, each with a resume pointer
    beyond the one the process started from and at most [len(code)]; the
    program is untouched. *)
Theorem Process_execute_effect idx env s self :
  process_list s !! idx = Some self →
  ∃ self' children,
    process_list (Process_execute idx env s)
    = <[idx := self']> (process_list s) ++ children ∧
    resume_ptr self' = 0 ∧
    Forall (λ c, resume_ptr self < resume_ptr c ≤ length (code s)) children ∧
    (∀ j, j ≠ idx → j < length (process_list s) →
       process_list (Process_execute idx env s) !! j = process_list s !! j) ∧
    code (Process_execute idx env s) = code s.
Proof.
  intros Hself.
  destruct (Process_execute_spec idx env s self Hself)
    as (self' & children & Hlist & Hres & Hch & Hcode).
  exists self', children. split_and!; [done..| |done].
  intros j Hne Hj. by apply Process_execute_frame.
Qed.

End ProcessExtra.

(** ** How far a round can grow the population *)

Section Growth.
Context {M Hint Env : Type} `{!Model M}.
Implicit Types (s : Sys M Hint Env) (p self : Process M Hint) (env : Env)
  (l : list (Process M Hint)).

Lemma mass_cons w p l : mass w (p :: l) = w (resume_ptr p) + mass w l.
Proof. done. Qed.

Lemma mass_app w l1 l2 : mass w (l1 ++ l2) = mass w l1 + mass w l2.
Proof. apply sum_list_with_app. Qed.

Lemma mass_clones w self r (hs : list Hint) :
  mass w (clone self r <$> hs) = length hs * w r.
Proof.
  induction hs as [|h hs IH]; [done|].
  rewrite fmap_cons, mass_cons, IH. simpl. lia.
Qed.

Lemma mass_ge_length w l : (∀ r, 1 ≤ w r) → length l ≤ mass w l.
Proof.
  intros Hw. induction l as [|p l IH]; [done|].
  rewrite mass_cons. pose proof (Hw (resume_ptr p)). simpl. lia.
Qed.

Lemma mass_const_resume w r l :
  Forall (λ p, resume_ptr p = r) l → mass w l = length l * w r.
Proof.
  induction 1 as [|p l Hp _ IH]; [done|].
  rewrite mass_cons, IH, Hp. simpl. lia.
Qed.

Lemma drop_after_execute i l self' children :
  i < length l →
  drop (S i) (<[i := self']> l ++ children) = drop (S i) l ++ children.
Proof.
  intros Hi. rewrite drop_app_le by (rewrite length_insert; lia).
  by rewrite drop_insert_lt by lia.
Qed.

(** ** An upper and a lower bound on the population a round leaves *)

Section Potential.
Context (w : nat → nat) (env : Env) (c : list (CodeLine M Hint Env)).

Lemma round_upper :
  (∀ i s self self' children,
     code s = c → process_list s !! i = Some self →
     process_list (Process_execute i env s) = <[i:=self']> (process_list s) ++ children →
     mass w children + 1 ≤ w (resume_ptr self)) →
  ∀ fuel i s s' calls,
    code s = c → Sys_execute_from fuel i env s = Some (s', calls) →
    length (process_list s') ≤ i + mass w (drop i (process_list s)).
Proof.
  intros Hstep fuel. induction fuel as [|fuel IH]; intros i s s' calls Hc Hrun; [done|].
  simpl in Hrun. destruct (process_list s !! i) as [self|] eqn:Hself.
  - destruct (Sys_execute_from fuel (S i) env (Process_execute i env s))
      as [[s1 calls1]|] eqn:Hrec; [|done].
    simplify_eq.
    destruct (Process_execute_spec i env s self Hself)
      as (self' & children & Hlist & _ & _ & Hcode).
    pose proof (IH _ _ _ _ Hcode Hrec) as Hbound.
    pose proof (Hstep i s self self' children eq_refl Hself Hlist) as Hmass.
    apply lookup_lt_Some in Hself as Hlt.
    rewrite Hlist, drop_after_execute, mass_app in Hbound by done.
    rewrite (drop_S _ _ _ Hself), mass_cons. lia.
  - simplify_eq. apply lookup_ge_None in Hself. lia.
Qed.

Lemma round_lower :
  (∀ i s self self' children,
     code s = c → process_list s !! i = Some self →
     process_list (Process_execute i env s) = <[i:=self']> (process_list s) ++ children →
     w (resume_ptr self) ≤ mass w children + 1) →
  ∀ fuel i s s' calls,
    code s = c → i ≤ length (process_list s) →
    Sys_execute_from fuel i env s = Some (s', calls) →
    i + mass w (drop i (process_list s)) ≤ length (process_list s').
Proof.
  intros Hstep fuel. induction fuel as [|fuel IH]; intros i s s' calls Hc Hi Hrun;
    [done|].
  simpl in Hrun. destruct (process_list s !! i) as [self|] eqn:Hself.
  - destruct (Sys_execute_from fuel (S i) env (Process_execute i env s))
      as [[s1 calls1]|] eqn:Hrec; [|done].
    simplify_eq.
    destruct (Process_execute_spec i env s self Hself)
      as (self' & children & Hlist & _ & _ & Hcode).
    apply lookup_lt_Some in Hself as Hlt.
    assert (S i ≤ length (process_list (Process_execute i env s))) as Hi'.
    { rewrite Hlist, length_app, length_insert. lia. }
    pose proof (IH _ _ _ _ Hcode Hi' Hrec) as Hbound.
    pose proof (Hstep i s self self' children eq_refl Hself Hlist) as Hmass.
    rewrite Hlist, drop_after_execute, mass_app in Hbound by done.
    rewrite (drop_S _ _ _ Hself), mass_cons. lia.
  - simplify_eq. apply lookup_ge_None in Hself.
    rewrite drop_ge by done. unfold mass. simpl. lia.
Qed.
End Potential.

(** The clones one call of [Process.execute] registers, weighed by
    [b ^ (lines left)], when no instruction returns more than [b] hints. *)
Lemma foldl_execute_line_mass idx env b L : 1 ≤ b → ∀ its s self r,
  process_list s !! idx = Some self →
  its.*1 = seq r (L - r) →
  Forall (λ li : nat * CodeLine M Hint Env,
            ∀ m h e, length (li.2 m h e).2 ≤ b) its →
  ∃ self' children,
    process_list (foldl (execute_line idx env) s its)
    = <[idx := self']> (process_list s) ++ children ∧
    mass (λ r, b ^ (L - r)) children + 1 ≤ b ^ (L - r).
Proof.
  intros Hb. induction its as [|[line instr] its IH]; intros s self r Hself Hlines Hits.
  - exists self, []. simpl. rewrite app_nil_r, list_insert_id by done.
    split; [done|]. pose proof (Nat.pow_nonzero b (L - r)). lia.
  - simpl in Hlines. destruct (L - r) as [|n] eqn:Hn; [done|].
    simpl in Hlines. injection Hlines as -> Hlines.
    apply Forall_cons in Hits as [Hinstr Hits]. simpl in Hinstr.
    destruct (instr (model self) (hint self) env) as [m' hs] eqn:Einstr.
    simpl. rewrite (execute_line_unfold _ _ _ _ _ _ _ _ Hself Einstr). simpl.
    set (self1 := {| resume_ptr := resume_ptr self; hint := last hs; model := m' |}).
    set (ch1 := clone self1 (r + 1) <$> take (length hs - 1) hs).
    apply lookup_lt_Some in Hself as Hidx.
    destruct (IH (set_process_list (<[idx:=self1]> (process_list s) ++ ch1) s)
      self1 (S r)) as (self' & ch2 & Hlist & Hmass); [| |done|].
    { simpl. rewrite lookup_app_l by (by rewrite length_insert).
      by rewrite list_lookup_insert_eq. }
    { replace (L - S r) with n by lia. done. }
    exists self', (ch1 ++ ch2). split.
    + rewrite Hlist. simpl. rewrite insert_app_l by (by rewrite length_insert).
      by rewrite list_insert_insert_eq, <-app_assoc.
    + rewrite mass_app. unfold ch1. rewrite mass_clones, length_take.
      replace (L - (r + 1)) with n by lia. replace (L - S r) with n in Hmass by lia.
      pose proof (Hinstr (model self) (hint self) env) as Hk. rewrite Einstr in Hk.
      simpl in Hk.
      assert (length hs - 1 `min` length hs ≤ b - 1) as Hk' by lia.
      pose proof (Nat.mul_le_mono_r _ _ (b ^ n) Hk').
      pose proof (Nat.pow_nonzero b n).
      replace (b * b ^ n) with ((b - 1) * b ^ n + b ^ n) by nia. lia.
Qed.

Lemma Process_execute_mass idx env b s self self' children :
  1 ≤ b →
  Forall (λ instr : CodeLine M Hint Env, ∀ m h e, length (instr m h e).2 ≤ b) (code s) →
  process_list s !! idx = Some self →
  process_list (Process_execute idx env s) = <[idx:=self']> (process_list s) ++ children →
  mass (λ r, b ^ (length (code s) - r)) children + 1
  ≤ b ^ (length (code s) - resume_ptr self).
Proof.
  intros Hb Hcode Hself Hlist. unfold Process_execute in Hlist. rewrite Hself in Hlist.
  destruct (foldl_execute_line_mass idx env b (length (code s)) Hb
    (instructions_from s (resume_ptr self)) s self (resume_ptr self) Hself
    (instructions_from_lines _ _)) as (self1 & ch & Hfold & Hmass).
  { apply Forall_fmap with (f := snd)
      (P := λ instr : CodeLine M Hint Env, ∀ m h e, length (instr m h e).2 ≤ b).
    unfold instructions_from. rewrite snd_zip by (rewrite length_seq; lia).
    by apply Forall_drop. }
  unfold reset_resume_ptr in Hlist. simpl in Hlist. rewrite Hfold in Hlist.
  apply lookup_lt_Some in Hself as Hidx.
  rewrite alter_app_l in Hlist by (by rewrite length_insert).
  apply app_inj_1 in Hlist as [_ <-]; [done|].
  by rewrite length_alter, !length_insert.
Qed.

Lemma Sys_execute_bounded env b s :
  1 ≤ b →
  Forall (λ instr : CodeLine M Hint Env, ∀ m h e, length (instr m h e).2 ≤ b) (code s) →
  ∃ fuel s' calls,
    Sys_execute fuel env s = Some (s', calls) ∧
    length (process_list s) ≤ length (process_list s') ∧
    length (process_list s')
    ≤ mass (λ r, b ^ (length (code s) - r)) (process_list s).
Proof.
  intros Hb Hcode.
  destruct (Sys_execute_from_terminates env s 0) as (fuel & [s' calls] & Hrun).
  exists fuel, s', calls. split; [done|].
  destruct (Sys_execute_from_calls _ _ _ _ _ _ Hrun) as (_ & Hlen & _ & _).
  split; [done|].
  apply (round_upper (λ r, b ^ (length (code s) - r)) env (code s)) in Hrun; [done| |done].
  intros i s0 self self' children Hc Hself Hlist. rewrite <-Hc in *.
  by eapply Process_execute_mass.
Qed.


Lemma execute_line_grows idx env s li :
  length (process_list s) ≤ length (process_list (execute_line idx env s li)) ∧
  (is_Some (process_list s !! idx) →
   is_Some (process_list (execute_line idx env s li) !! idx)).
Proof.
  destruct li as [line instr].
  destruct (process_list s !! idx) as [self|] eqn:Hself.
  - destruct (instr (model self) (hint self) env) as [m' hs] eqn:Hinstr.
    rewrite (execute_line_unfold _ _ _ _ _ _ _ _ Hself Hinstr). simpl.
    apply lookup_lt_Some in Hself as Hidx.
    rewrite length_app, length_insert. split; [lia|]. intros _.
    rewrite lookup_app_l by (by rewrite length_insert).
    rewrite list_lookup_insert_eq by done. eauto.
  - rewrite execute_line_None by done. split; [done|]. by rewrite Hself.
Qed.

Lemma foldl_execute_line_grows idx env its : ∀ s,
  length (process_list s)
  ≤ length (process_list (foldl (execute_line idx env) s its)).
Proof.
  induction its as [|li its IH]; intros s; simpl; [done|].
  destruct (execute_line_grows idx env s li) as [Hlen _].
  etransitivity; [exact Hlen|apply IH].
Qed.

(** A line that always returns two hints or more makes every process that
    runs it fork. *)
Lemma foldl_execute_line_forks idx env line (instr : CodeLine M Hint Env) its :
  (∀ m h e, 2 ≤ length (instr m h e).2) → ∀ s,
  (line, instr) ∈ its → is_Some (process_list s !! idx) →
  length (process_list s) + 1
  ≤ length (process_list (foldl (execute_line idx env) s its)).
Proof.
  intros Hinstr. induction its as [|li its IH]; intros s Hin Hidx; [by inv Hin|].
  simpl. apply elem_of_cons in Hin as [<-|Hin].
  - destruct Hidx as [self Hself].
    destruct (instr (model self) (hint self) env) as [m' hs] eqn:Einstr.
    pose proof (Hinstr (model self) (hint self) env) as Hk. rewrite Einstr in Hk.
    simpl in Hk.
    pose proof (foldl_execute_line_grows idx env its
      (execute_line idx env s (line, instr))) as Hmono.
    rewrite (execute_line_unfold _ _ _ _ _ _ _ _ Hself Einstr) in Hmono.
    simpl in Hmono.
    rewrite length_app, length_insert, length_fmap, length_take in Hmono.
    rewrite (execute_line_unfold _ _ _ _ _ _ _ _ Hself Einstr). simpl. lia.
  - destruct (execute_line_grows idx env s li) as [Hlen Hsome].
    specialize (IH (execute_line idx env s li) Hin (Hsome Hidx)). lia.
Qed.

Lemma Process_execute_forks idx env s self self' children line
    (instr : CodeLine M Hint Env) :
  (∀ m h e, 2 ≤ length (instr m h e).2) →
  code s !! line = Some instr → resume_ptr self ≤ line →
  process_list s !! idx = Some self →
  process_list (Process_execute idx env s) = <[idx:=self']> (process_list s) ++ children →
  1 ≤ length children.
Proof.
  intros Hinstr Hline Hres Hself Hlist.
  apply (f_equal length) in Hlist. rewrite length_app, length_insert in Hlist.
  unfold Process_execute, reset_resume_ptr in Hlist. rewrite Hself in Hlist.
  simpl in Hlist. rewrite length_alter in Hlist.
  assert ((line, instr) ∈ instructions_from s (resume_ptr self)) as Hin.
  { apply list_elem_of_lookup. exists (line - resume_ptr self).
    rewrite lookup_instructions_from.
    replace (resume_ptr self + (line - resume_ptr self)) with line by lia.
    by rewrite Hline. }
  pose proof (foldl_execute_line_forks idx env line instr
    (instructions_from s (resume_ptr self)) Hinstr s Hin (mk_is_Some _ _ Hself))
    as Hfork.
  lia.
Qed.

(** If no instruction of the program ever returns more than [b] hints, a
    round terminates with a population no smaller than before and no
    larger than the sum, over the processes, of [b ^ (lines left)]; from
    processes that all start at line 0, at most [b ^ len(code)] times as
    many. *)
Theorem round_growth_bound env b s :
  1 ≤ b →
  Forall (λ instr : CodeLine M Hint Env, ∀ m h e, length (instr m h e).2 ≤ b) (code s) →
  ∃ fuel s' calls,
    Sys_execute fuel env s = Some (s', calls) ∧
    length (process_list s) ≤ length (process_list s') ∧
    length (process_list s')
    ≤ mass (λ r, b ^ (length (code s) - r)) (process_list s) ∧
    (Forall (λ p, resume_ptr p = 0) (process_list s) →
     length (process_list s') ≤ length (process_list s) * b ^ length (code s)).
Proof.
  intros Hb Hcode.
  destruct (Sys_execute_bounded env b s Hb Hcode) as (fuel & s' & calls & Hrun & Hge & Hle).
  exists fuel, s', calls. split_and!; [done..|].
  intros Hzero. rewrite (mass_const_resume _ 0) in Hle by done.
  by rewrite Nat.sub_0_r in Hle.
Qed.

(** If every instruction of the program returns at most one hint, nothing
    forks: a round leaves the population at its size. *)
Theorem round_without_forks env s :
  Forall (λ instr : CodeLine M Hint Env, ∀ m h e, length (instr m h e).2 ≤ 1) (code s) →
  ∃ fuel s' calls,
    Sys_execute fuel env s = Some (s', calls) ∧
    length (process_list s') = length (process_list s).
Proof.
  intros Hcode.
  destruct (Sys_execute_bounded env 1 s (le_n 1) Hcode)
    as (fuel & s' & calls & Hrun & Hge & Hle).
  exists fuel, s', calls. split; [done|].
  assert (mass (λ r, 1 ^ (length (code s) - r)) (process_list s)
          = length (process_list s)) as Hmass.
  { clear. induction (process_list s) as [|p l IH]; [done|].
    rewrite mass_cons, IH, Nat.pow_1_l. done. }
  lia.
Qed.

(** If some line of the program always returns two hints or more, every
    process that starts at or before that line forks at least once: a
    round at least doubles a population of such processes. *)
Theorem round_doubles env s line (instr : CodeLine M Hint Env) :
  code s !! line = Some instr →
  (∀ m h e, 2 ≤ length (instr m h e).2) →
  Forall (λ p, resume_ptr p ≤ line) (process_list s) →
  ∃ fuel s' calls,
    Sys_execute fuel env s = Some (s', calls) ∧
    2 * length (process_list s) ≤ length (process_list s').
Proof.
  intros Hline Hinstr Hstart.
  destruct (Sys_execute_from_terminates env s 0) as (fuel & [s' calls] & Hrun).
  exists fuel, s', calls. split; [done|].
  set (w := λ r, if decide (r ≤ line) then 2 else 1).
  apply (round_lower w env (code s)) in Hrun; [| |done|lia].
  - simpl in Hrun. rewrite drop_0 in Hrun.
    assert (mass w (process_list s) = length (process_list s) * 2) as Hmass.
    { clear -Hstart. induction Hstart as [|p l Hp _ IH]; [done|].
      rewrite mass_cons, IH. unfold w. rewrite decide_True by done. simpl. lia. }
    lia.
  - intros i s0 self self' children Hc Hself Hlist. unfold w at 1.
    case_decide as Hres; [|lia].
    rewrite <-Hc in Hline.
    pose proof (Process_execute_forks i env s0 self self' children line instr
      Hinstr Hline Hres Hself Hlist) as Hfork.
    assert (length children ≤ mass w children) as Hge.
    { apply mass_ge_length. intros r. unfold w. case_decide; lia. }
    lia.
Qed.

End Growth.

(** ** Runs of the driving loop *)

Section RunInvariant.
Context {M Hint Env : Type} `{!Model M} `{!Environment Env}.
Implicit Types (s : Sys M Hint Env) (os : OperatingSystem M Hint Env).

Lemma run_keeps_invariant c ops : ∀ os,
  between_calls c os → Forall final_count_positive ops →
  ∃ fuel0, ∀ fuel, fuel0 ≤ fuel →
    ∃ t, run fuel ops os = Some t ∧
         length t = length ops ∧
         os_env <$> t = env_after ops (os_env os) ∧
         Forall (between_calls c) t.
Proof.
  induction ops as [|[|stride final_count] ops IH]; intros os Hinv Hops.
  - exists 0. intros fuel _. exists []. by split_and!.
  - apply Forall_cons in Hops as [_ Hops].
    destruct (Sys_execute_from_terminates (os_env os) (os_sys os) 0)
      as (f1 & [s' calls] & Hrun).
    set (os' := {| os_sys := s'; os_env := update (os_env os) |}).
    assert (between_calls c os') as Hinv'.
    { destruct Hinv as (Hcode & Hne & _).
      destruct (Sys_execute_from_calls _ _ _ _ _ _ Hrun) as (_ & Hlen & Hcode' & _).
      destruct (Sys_execute_from_reset _ _ _ _ _ _ Hrun) as [_ Hreset].
      split_and!; simpl.
      - congruence.
      - intros Hnil. rewrite Hnil in Hlen. simpl in Hlen.
        destruct (process_list (os_sys os)); [done|simpl in Hlen; lia].
      - apply Forall_lookup. intros j p Hp. apply (Hreset j p); [lia|done]. }
    destruct (IH os' Hinv' Hops) as [f2 Hrest].
    exists (f1 `max` f2). intros fuel Hfuel.
    destruct (Hrest fuel) as (t & Ht & Hlen & Henv & Hall); [lia|].
    exists (os' :: t). split_and!.
    + simpl. unfold OperatingSystem_execute, Sys_execute.
      rewrite (Sys_execute_from_fuel_mono _ fuel _ _ _ _ Hrun) by lia.
      fold os'. by rewrite Ht.
    + simpl. by rewrite Hlen.
    + by rewrite fmap_cons, Henv.
    + by constructor.
  - apply Forall_cons in Hops as [Hf Hops]. simpl in Hf.
    set (os' := (OperatingSystem_prune stride final_count os).1).
    pose proof (Sys_prune_returns stride final_count (os_sys os) Hf) as Hret.
    pose proof (Sys_prune_code stride final_count (os_sys os)) as Hcode'.
    assert (process_list (Sys_prune stride final_count (os_sys os)).1
            ⊆+ process_list (os_sys os) ∧
            (process_list (os_sys os) ≠ [] →
             process_list (Sys_prune stride final_count (os_sys os)).1 ≠ []))
      as [Hsub Hne'].
    { destruct (Z.le_gt_cases (Z.of_nat (length (process_list (os_sys os))))
        final_count) as [Hle|Hgt].
      - rewrite Sys_prune_noop by done. by split.
      - destruct (Sys_prune_valid_picks stride final_count (os_sys os) Hf Hgt)
          as (_ & ps & Hsorted & Hhead & Hpick).
        split.
        + rewrite <-(sort_desc_Permutation Process_score (process_list (os_sys os))).
          apply sublist_submseteq. by eapply picked_sublist.
        + intros _ Hnil.
          destruct (Forall2_lookup_l _ _ _ _ _ Hpick Hhead) as (p & Hp & _).
          by rewrite Hnil in Hp. }
    assert (OperatingSystem_prune stride final_count os = (os', Py.Returned)) as Hprune.
    { unfold os', OperatingSystem_prune.
      destruct (Sys_prune stride final_count (os_sys os)) as [s' o]. simpl in *.
      by subst. }
    assert (os_sys os' = (Sys_prune stride final_count (os_sys os)).1
            ∧ os_env os' = os_env os) as [Hsys Henv'].
    { unfold os', OperatingSystem_prune.
      by destruct (Sys_prune stride final_count (os_sys os)). }
    assert (between_calls c os') as Hinv'.
    { destruct Hinv as (Hcode & Hne & Hzero). unfold between_calls. rewrite Hsys.
      split_and!.
      - congruence.
      - by apply Hne'.
      - apply Forall_forall. intros p Hp. rewrite Forall_forall in Hzero.
        apply Hzero. by eapply elem_of_submseteq. }
    destruct (IH os' Hinv' Hops) as [f2 Hrest].
    exists f2. intros fuel Hfuel.
    destruct (Hrest fuel Hfuel) as (t & Ht & Hlen & Henv & Hall).
    exists (os' :: t). split_and!.
    + simpl. by rewrite Hprune, Ht.
    + simpl. by rewrite Hlen.
    + by rewrite fmap_cons, Henv, Henv'.
    + by constructor.
Qed.

(** A run of [execute] and [prune] calls whose [final_count]s are all at
    least 1, from a freshly built [OperatingSystem]: no call raises, each
    [execute] updates the environment once and no [prune] touches it, and
    after every call the program is the one given, the population is not
    empty and every resume pointer is 0. *)
Theorem run_stays_well_formed initial (c : list (CodeLine M Hint Env)) env ops :
  Forall final_count_positive ops →
  ∃ fuel0, ∀ fuel, fuel0 ≤ fuel →
    ∃ t, run fuel ops (OperatingSystem_init initial c env) = Some t ∧
         length t = length ops ∧
         os_env <$> t = env_after ops env ∧
         Forall (between_calls c) t.
Proof.
  intros Hops. apply (run_keeps_invariant c ops (OperatingSystem_init initial c env));
    [|done].
  split_and!; simpl; [done..|]. by repeat constructor.
Qed.

End RunInvariant.

(** ** The statements at concrete inputs *)

Section Examples.
Import Main.
Local Existing Instance MainEnvironment_Environment.
Local Existing Instance model_a.
Local Open Scope Z_scope.

(** C1 on the first fork of [main.py]: line 1 returns [[1; 2]] for the
    initial model. *)
Lemma fork_on_hints_witness :
  let s := Sys_init initial_model program in
  let s' := execute_line 0 initial_env s (1%nat, step_two_test) in
  process_list s !! 0%nat = Some initial_process ∧
  step_two_test (model initial_process) (hint initial_process) initial_env
  = (initial_model, [1; 2]) ∧
  process_list s' !! 0%nat
  = Some {| resume_ptr := 0; hint := Some 2; model := initial_model |} ∧
  process_list s' !! 1%nat
  = Some {| resume_ptr := 2; hint := Some 1;
            model := {| unique_name := 1; value := 0 |} |} ∧
  length (process_list s') = 2%nat.
Proof.
  intros s s'.
  assert (process_list s !! 0%nat = Some initial_process) as Hself by reflexivity.
  assert (step_two_test (model initial_process) (hint initial_process) initial_env
          = (initial_model, [1; 2])) as Hinstr by reflexivity.
  destruct (fork_on_hints 0 initial_env s 1 step_two_test initial_process
    initial_model [1; 2] [] Hself Hinstr)
    as (Hparent & _ & _ & Hsize & Hnew & _).
  split_and!; [exact Hself|exact Hinstr|exact Hparent| |].
  - apply (Hnew 0%nat 1); [simpl; lia|reflexivity].
  - apply Nat2Z.inj. etransitivity; [exact Hsize|reflexivity].
Defined.

(** C4 on twelve processes, [stride = 3], [final_count = 5]. *)
Lemma prune_monotone_witness :
  2 ≤ 3 ∧ 1 ≤ 5 ∧
  (Sys_prune 3 5 population12).2 = Py.Returned ∧
  (length (process_list (Sys_prune 3 5 population12).1)
   ≤ length (process_list population12))%nat ∧
  Z.of_nat (length (process_list (Sys_prune 3 5 population12).1))
  = kept_count 3 5 12.
Proof.
  assert (2 ≤ 3) as H23 by lia. assert (1 ≤ 5) as H15 by lia.
  destruct (prune_monotone 3 5 population12 H23 H15) as (Hret & Hle & _ & Hgt).
  split_and!; [done..|]. apply Hgt. simpl. lia.
Defined.

(** C5 on a shuffled population of scores 1..12. *)
Lemma prune_scenario_witness :
  Process_score <$> process_list population12
    ≡ₚ [1; 2; 3; 4; 5; 6; 7; 8; 9; 10; 11; 12] ∧
  Process_score <$> process_list (Sys_prune 3 5 population12).1
  = [12; 11; 10; 7; 4; 1].
Proof.
  assert (Process_score <$> process_list population12
            ≡ₚ [1; 2; 3; 4; 5; 6; 7; 8; 9; 10; 11; 12]) as Hperm.
  { rewrite <-(sort_desc_Permutation id).
    apply (reverse_Permutation [1; 2; 3; 4; 5; 6; 7; 8; 9; 10; 11; 12]). }
  split; [exact Hperm|]. apply (prune_scenario population12 Hperm).
Defined.

(** C10 on twelve processes, [stride = 3], [final_count = 5]. *)
Lemma prune_result_descending_witness :
  2 ≤ 3 ∧ 1 ≤ 5 ∧ 5 < Z.of_nat (length (process_list population12)) ∧
  StronglySorted (key_ge Process_score)
    (process_list (Sys_prune 3 5 population12).1).
Proof.
  assert (2 ≤ 3) as H23 by lia. assert (1 ≤ 5) as H15 by lia.
  assert (5 < Z.of_nat (length (process_list population12))) as Hlen
    by (simpl; lia).
  split_and!; [done..|].
  apply (prune_result_descending 3 5 population12 H23 H15 Hlen).
Defined.

(** C8 as the code has it, at [stride = 1], [final_count = 5]. *)
Lemma prune_degenerate_witness :
  (1 ≤ 1 ∨ 5 ≤ 0) ∧ (Sys_prune 1 5 population12).2 = Py.Returned.
Proof.
  assert (1 ≤ 1 ∨ 5 ≤ 0) as Hdeg by (left; lia).
  split; [exact Hdeg|].
  destruct (prune_degenerate 1 5 population12 Hdeg) as (_ & Hret & _).
  apply Hret; lia.
Defined.

(** C6 at a failing input: twelve processes pruned with [stride = 3] and
    [final_count = 5] leave six. *)
Lemma prune_exceeds_final_count :
  (Sys_prune 3 5 population12).2 = Py.Returned ∧
  length (process_list (Sys_prune 3 5 population12).1) = 6%nat ∧
  kept_count 3 5 12 = 5 + 1.
Proof. by vm_compute. Qed.

(** C7 as stated fails: no population, of whatever models, and no
    [final_count] lead [Sys.prune] with [stride = 1] into the first branch,
    where [stride - 1] divides. *)
Lemma stride_one_never_divides_by_zero :
  (∃ (M Hint Env : Type) (s : Sys M Hint Env) (final_count : Z),
     final_count < Z.of_nat (length (process_list s)) ∧
     first_branch_taken 1 final_count s = true ∧
     Py.floordiv (Z.of_nat (length (process_list s)) - final_count) (1 - 1)
     = Py.Raise Py.ZeroDivisionError)
  ↔ False.
Proof.
  split; [|done]. intros (M & Hint & Env & s & final_count & _ & Hbranch & _).
  by rewrite first_branch_taken_stride_one in Hbranch.
Qed.

(** C8 as stated fails: with [final_count = 0] nothing rejects the call,
    and the division [len(x) // final_count] raises after the population
    has been sorted in place. *)
Lemma prune_final_count_zero_raises :
  (1 ≤ 1 ∨ 0 ≤ 0) ∧
  (Sys_prune 1 0 population12).2 = Py.Raised Py.ZeroDivisionError ∧
  value ∘ model <$> process_list (Sys_prune 1 0 population12).1
  = [12; 11; 10; 9; 8; 7; 6; 5; 4; 3; 2; 1].
Proof. split; [left; lia|]. by vm_compute. Qed.

(** The program of [main.py] reads the value of a model, never its name. *)
Lemma program_deterministic :
  deterministic_up_to same_value model_a model_b program.
Proof.
  split_and!.
  - by intros m1 m2 Hm.
  - by intros m1 m2 Hm.
  - unfold program, same_value.
    repeat apply Forall_cons_2; [| | | |apply Forall_nil_2];
      intros m1 m2 h env Hm; simpl.
    + by destruct h; simpl; rewrite ?Hm.
    + by rewrite Hm.
    + by destruct h; simpl; rewrite ?Hm.
    + done.
Qed.

(** C9 on the program of [main.py], for two runs that draw different
    names. *)
Lemma runs_agree_witness :
  same_value initial_model initial_model ∧
  deterministic_up_to same_value model_a model_b program ∧
  ∃ fuel0, ∀ fuel, (fuel0 ≤ fuel)%nat →
    ∃ t1 t2,
      run (Model0:=model_a) fuel [Execute; Prune 10 50; Execute; Prune 2 3; Execute]
        (OperatingSystem_init initial_model program initial_env) = Some t1 ∧
      run (Model0:=model_b) fuel [Execute; Prune 10 50; Execute; Prune 2 3; Execute]
        (OperatingSystem_init initial_model program initial_env) = Some t2 ∧
      observe (Model0:=model_a) <$> t1 = observe (Model0:=model_b) <$> t2 ∧
      os_env <$> t1 = os_env <$> t2.
Proof.
  assert (same_value initial_model initial_model) as Hinit by reflexivity.
  split; [exact Hinit|]. split; [exact program_deterministic|].
  apply (runs_agree model_a model_b same_value initial_model program initial_env
    [Execute; Prune 10 50; Execute; Prune 2 3; Execute] Hinit program_deterministic).
Defined.

(** The size bound on twelve processes, [stride = 3], [final_count = 5]. *)
Lemma prune_size_witness :
  2 ≤ 3 ∧ 1 ≤ 5 ∧ 5 < Z.of_nat (length (process_list population12)) ∧
  1 ≤ Z.of_nat (length (process_list (Sys_prune 3 5 population12).1)) ≤ 5 + 1.
Proof.
  assert (2 ≤ 3) as H23 by lia. assert (1 ≤ 5) as H15 by lia.
  assert (5 < Z.of_nat (length (process_list population12))) as Hlen
    by (simpl; lia).
  split; [done|]. split; [done|]. split; [done|].
  apply (prune_size 3 5 population12 H23 H15 Hlen).
Defined.

(** One round of the two-line program from a model of value 0 and no hint:
    line 0 returns no hint; line 1 returns [[1; 2]], so the process goes on
    with hint 2 and a process with hint 1 is registered to resume at line
    2; that process runs in the same round, nothing being left of the
    program, and both end with resume pointer 0. *)
Lemma two_line_round :
  let s := Sys_init initial_model two_line_program in
  let s1 := execute_line 0 initial_env s (0%nat, pass_hint) in
  let s2 := execute_line 0 initial_env s1 (1%nat, step_two_test) in
  process_list s1 = [ {| resume_ptr := 0; hint := None; model := initial_model |} ] ∧
  process_list s2
  = [ {| resume_ptr := 0; hint := Some 2; model := initial_model |};
      {| resume_ptr := 2; hint := Some 1;
         model := {| unique_name := 1; value := 0 |} |} ] ∧
  Sys_execute 3 initial_env s
  = Some ({| process_list :=
               [ {| resume_ptr := 0; hint := Some 2; model := initial_model |};
                 {| resume_ptr := 0; hint := Some 1;
                    model := {| unique_name := 1; value := 0 |} |} ];
             code := two_line_program |}, [0; 1]%nat).
Proof. by vm_compute. Qed.

End Examples.

(** ** Further statements at concrete inputs *)

Section MoreExamples.
Import Main.
Local Existing Instance MainEnvironment_Environment.
Local Existing Instance model_a.

(** No instruction of [main.py] returns more than two hints. *)
Lemma program_at_most_two_hints :
  Forall (λ instr : CodeLine MainModel ModelHint MainEnvironment,
            ∀ m h e, length (instr m h e).2 ≤ 2) program.
Proof.
  unfold program. repeat apply Forall_cons_2; [| | | |apply Forall_nil_2];
    intros m h e; simpl; [lia| |lia|].
  - destruct (_ =? _)%Z; simpl; lia.
  - destruct h; simpl; lia.
Qed.

(** [Process.execute] on the initial process of [main.py]. *)
Lemma Process_execute_effect_witness :
  process_list (Sys_init initial_model program) !! 0 = Some initial_process ∧
  ∃ self' children,
    process_list (Process_execute 0 initial_env (Sys_init initial_model program))
    = <[0 := self']> (process_list (Sys_init initial_model program)) ++ children ∧
    resume_ptr self' = 0 ∧
    Forall (λ c, resume_ptr initial_process < resume_ptr c ≤ length program) children.
Proof.
  assert (process_list (Sys_init initial_model program) !! 0 = Some initial_process)
    as Hself by reflexivity.
  split; [exact Hself|].
  destruct (Process_execute_effect 0 initial_env (Sys_init initial_model program)
    initial_process Hself) as (self' & children & Hlist & Hres & Hch & _).
  exists self', children. split; [exact Hlist|]. split; [exact Hres|exact Hch].
Defined.

(** A process forked by the last line of [main.py]. *)
Lemma Process_execute_past_end_witness :
  let last_fork : Process MainModel ModelHint :=
    {| resume_ptr := 4; hint := Some 1%Z; model := initial_model |} in
  let s : Sys MainModel ModelHint MainEnvironment :=
    {| process_list := [initial_process; last_fork]; code := program |} in
  process_list s !! 1 = Some last_fork ∧
  length (code s) ≤ resume_ptr last_fork ∧
  process_list (Process_execute 1 initial_env s)
  = [initial_process; {| resume_ptr := 0; hint := Some 1%Z; model := initial_model |}].
Proof.
  intros last_fork s.
  assert (process_list s !! 1 = Some last_fork) as Hself by reflexivity.
  assert (length (code s) ≤ resume_ptr last_fork) as Hpast by (simpl; lia).
  split; [exact Hself|]. split; [exact Hpast|].
  rewrite (Process_execute_past_end 1 initial_env s last_fork Hself Hpast).
  reflexivity.
Defined.

(** One round of [main.py] from its initial state: at most 2 ^ 4 processes. *)
Lemma round_growth_bound_witness :
  1 ≤ 2 ∧
  Forall (λ instr : CodeLine MainModel ModelHint MainEnvironment,
            ∀ m h e, length (instr m h e).2 ≤ 2)
    (code (Sys_init initial_model program)) ∧
  ∃ fuel s' calls,
    Sys_execute fuel initial_env (Sys_init initial_model program) = Some (s', calls) ∧
    1 ≤ length (process_list s') ≤ 16.
Proof.
  assert (1 ≤ 2) as Hb by lia.
  split; [exact Hb|]. split; [exact program_at_most_two_hints|].
  destruct (round_growth_bound initial_env 2 (Sys_init initial_model program) Hb
    program_at_most_two_hints) as (fuel & s' & calls & Hrun & Hge & Hle & _).
  exists fuel, s', calls. split; [exact Hrun|]. split; [exact Hge|exact Hle].
Defined.

(** A program whose instructions return one hint at most. *)
Lemma round_without_forks_witness :
  let s : Sys MainModel ModelHint MainEnvironment :=
    {| process_list := [initial_process; initial_process];
       code := [pass_hint; step_fou_prin] |} in
  Forall (λ instr : CodeLine MainModel ModelHint MainEnvironment,
            ∀ m h e, length (instr m h e).2 ≤ 1) (code s) ∧
  ∃ fuel s' calls,
    Sys_execute fuel initial_env s = Some (s', calls) ∧
    length (process_list s') = 2.
Proof.
  intros s.
  assert (Forall (λ instr : CodeLine MainModel ModelHint MainEnvironment,
            ∀ m h e, length (instr m h e).2 ≤ 1) (code s)) as Hcode.
  { repeat apply Forall_cons_2; [| |apply Forall_nil_2];
      intros m h e; destruct h; simpl; lia. }
  split; [exact Hcode|]. exact (round_without_forks initial_env s Hcode).
Defined.

(** Line 2 of [main.py], [step_thr_incr], always returns two hints. *)
Lemma round_doubles_witness :
  code (Sys_init initial_model program) !! 2 = Some step_thr_incr ∧
  (∀ m h e, 2 ≤ length (step_thr_incr m h e).2) ∧
  Forall (λ p : Process MainModel ModelHint, resume_ptr p ≤ 2)
    (process_list (Sys_init initial_model program)) ∧
  ∃ fuel s' calls,
    Sys_execute fuel initial_env (Sys_init initial_model program) = Some (s', calls) ∧
    2 ≤ length (process_list s').
Proof.
  assert (code (Sys_init initial_model program) !! 2 = Some step_thr_incr)
    as Hline by reflexivity.
  assert (∀ m h e, 2 ≤ length (step_thr_incr m h e).2) as Hinstr
    by (intros m h e; simpl; lia).
  assert (Forall (λ p : Process MainModel ModelHint, resume_ptr p ≤ 2)
    (process_list (Sys_init initial_model program))) as Hstart.
  { apply Forall_cons_2; [simpl; lia|apply Forall_nil_2]. }
  split; [exact Hline|]. split; [exact Hinstr|]. split; [exact Hstart|].
  exact (round_doubles initial_env (Sys_init initial_model program) 2 step_thr_incr
    Hline Hinstr Hstart).
Defined.

Local Open Scope Z_scope.

(** [prune] with a negative stride and [final_count = 5]. *)
Lemma prune_only_drops_witness :
  1 ≤ 5 ∧
  (Sys_prune (-3) 5 population12).2 = Py.Returned ∧
  process_list (Sys_prune (-3) 5 population12).1 ⊆+ process_list population12.
Proof.
  assert (1 ≤ 5) as Hf by lia. split; [exact Hf|].
  destruct (prune_only_drops (-3) 5 population12 Hf) as (Hret & _ & Hsub & _).
  split; [exact Hret|exact Hsub].
Defined.

(** [prune] with [final_count = 0]. *)
Lemma prune_failure_witness :
  (Sys_prune 1 0 population12).2 = Py.Raised Py.ZeroDivisionError ∧
  process_list (Sys_prune 1 0 population12).1
  = Py.sort_desc Process_score (process_list population12).
Proof.
  assert ((Sys_prune 1 0 population12).2 = Py.Raised Py.ZeroDivisionError)
    as Hraised by reflexivity.
  split; [exact Hraised|].
  apply (prune_failure 1 0 population12 Py.ZeroDivisionError Hraised).
Defined.

(** Two turns of the loop of [main]. *)
Lemma run_stays_well_formed_witness :
  Forall final_count_positive [Execute; Prune 10 50; Execute; Prune 10 50] ∧
  ∃ fuel0, ∀ fuel, (fuel0 ≤ fuel)%nat →
    ∃ t, run fuel [Execute; Prune 10 50; Execute; Prune 10 50]
           (OperatingSystem_init initial_model program initial_env) = Some t ∧
         length t = 4%nat ∧
         clock ∘ os_env <$> t = [1; 1; 2; 2]%nat ∧
         Forall (between_calls program) t.
Proof.
  assert (Forall final_count_positive [Execute; Prune 10 50; Execute; Prune 10 50])
    as Hops.
  { repeat apply Forall_cons_2; simpl; try done; apply Forall_nil_2. }
  split; [exact Hops|].
  destruct (run_stays_well_formed initial_model program initial_env
    [Execute; Prune 10 50; Execute; Prune 10 50] Hops) as [fuel0 Hrun].
  exists fuel0. intros fuel Hfuel.
  destruct (Hrun fuel Hfuel) as (t & Ht & Hlen & Henv & Hall).
  exists t. split; [exact Ht|]. split; [exact Hlen|]. split; [|exact Hall].
  rewrite list_fmap_compose, Henv. reflexivity.
Defined.

End MoreExamples.
